(** * The BTRY lottery: raffle engine, height scheduler and notifier

    A shallow embedding of [lottery/lottery.go] and the properties of its
    specification.  Go integers are modelled as [Z] with the wrap-around of
    their width written out, [float64] as Rocq's primitive binary64 floats,
    slices as lists with checked indexing, the Go map as a [gmap], and the
    calls to the store, the node, the notifier and the logger as events of
    a history which the collaborators' answers may depend on. *)

From Stdlib Require Import ZArith QArith List Lia Floats.
From Stdlib.Strings Require Byte.
From stdpp Require Import gmap strings list pretty.

Local Open Scope Z_scope.

(** ** Go's machine integers *)

(** [uint64(z)], [uint32(z)]: the value of an unsigned operation is the
    mathematical one reduced modulo [2^w]. *)
Definition uint64 (z : Z) : Z := z mod 2 ^ 64.
Definition uint32 (z : Z) : Z := z mod 2 ^ 32.

(** [int64(z)]: two's complement, also used for conversions from [uint64].
    [int] is 64 bits wide on the platforms the server runs on. *)
Definition int64 (z : Z) : Z := (z + 2 ^ 63) mod 2 ^ 64 - 2 ^ 63.
Definition int (z : Z) : Z := int64 z.

Definition is_uint64 (z : Z) : Prop := 0 <= z < 2 ^ 64.
Definition is_uint32 (z : Z) : Prop := 0 <= z < 2 ^ 32.

(** ** Outcomes of Go code

    A call returns a value or panics (index out of range).  [Unfinished] is
    the outcome of a loop whose fuel ran out; the theorems below show that the
    loops of this package never produce it with the fuel they are given. *)
Inductive go (A : Type) : Type :=
| Returns (a : A)
| Panics
| Unfinished.
Arguments Returns {A} a.
Arguments Panics {A}.
Arguments Unfinished {A}.

Definition go_bind {A B} (c : go A) (k : A -> go B) : go B :=
  match c with
  | Returns a => k a
  | Panics => Panics
  | Unfinished => Unfinished
  end.

(** [s[i]] on a slice: panics outside [0, len(s)). *)
Definition index {A} (s : list A) (i : Z) : go A :=
  if i <? 0 then Panics
  else match s !! Z.to_nat i with
       | Some a => Returns a
       | None => Panics
       end.

Definition len {A} (s : list A) : Z := Z.of_nat (length s).

(** ** The data model

    Modelled from the spec: [db.Bet] and [db.Winner] are declared in the
    package [db].  The records have the fields this package reads and writes,
    with the types its code gives them: [Index], [Ticket] and [Prizes] are
    [uint64], a public key is a string. *)

Module Bet.
Record t := mk { PublicKey : string; Index : Z }.
End Bet.

Module Winner.
Record t := mk { PublicKey : string; Ticket : Z; Prizes : Z; Expired : bool }.
End Winner.

(** ** [math/big]: [new(big.Int).Exp(x, y, m)] for a non-negative exponent

    "Exp sets z = x**y mod |m| (i.e. the sign of m is ignored), and returns z.
    If m == nil or m == 0, z = x**y".  The exponent is a natural number here:
    [getWinningTicket] builds it from a byte. *)
Definition big_Exp (x : Z) (y : N) (m : Z) : Z :=
  if m =? 0 then x ^ Z.of_N y else (x ^ Z.of_N y) mod Z.abs m.

(** [x.Uint64()]: the low 64 bits of the magnitude. *)
Definition big_Uint64 (x : Z) : Z := Z.abs x mod 2 ^ 64.

(** ** [getWinningTicket] *)

Definition getWinningTicket (hash : list Byte.byte) (i : Z) (prizePool : Z) : go Z :=
  go_bind (index hash i) (fun b1 =>
  let num1 := int64 (Z.of_N (Byte.to_N b1)) in
  go_bind (index hash (int (i - 1))) (fun b2 =>
  let num2 := Byte.to_N b2 in
  let result := big_Exp num1 num2 (int64 prizePool) in
  Returns (uint64 (big_Uint64 result + 1)))).

(** ** [getPublicKey]

    The [for left <= right] loop, one iteration per unit of fuel. *)
Fixpoint getPublicKey_loop (fuel : nat) (bets : list Bet.t) (winningTicket : Z)
    (left right : Z) : go string :=
  match fuel with
  | O => Unfinished
  | S fuel' =>
    if left <=? right then
      let mid := Z.quot (int (left + right)) 2 in
      go_bind (index bets mid) (fun b =>
      let i := Bet.Index b in
      if i =? winningTicket then Returns (Bet.PublicKey b)
      else if i <? winningTicket then
        getPublicKey_loop fuel' bets winningTicket (int (mid + 1)) right
      else
        getPublicKey_loop fuel' bets winningTicket left (int (mid - 1)))
    else
      go_bind (index bets left) (fun b => Returns (Bet.PublicKey b))
  end.

Definition getPublicKey (bets : list Bet.t) (winningTicket : Z) : go string :=
  getPublicKey_loop (S (length bets)) bets winningTicket 0 (int (len bets - 1)).

(** ** The invariant of a bet list

    The bets, in order, cut [(0, P]] into the ranges [(lo, Index]]: each range
    is non-empty (so the list is strictly ascending by [Index]), each starts
    where the previous one ends, and the last one ends at [P]. *)
Fixpoint ranges_from (lo : Z) (bets : list Bet.t) (P : Z) : bool :=
  match bets with
  | [] => lo =? P
  | b :: bets' => (lo <? Bet.Index b) && ranges_from (Bet.Index b) bets' P
  end.

Definition partitions (bets : list Bet.t) (P : Z) : bool := ranges_from 0 bets P.

(** The lower end (exclusive) of the range of the bet at position [k]. *)
Definition range_lo (bets : list Bet.t) (k : nat) : Z :=
  match k with
  | O => 0
  | S k' => from_option Bet.Index 0 (bets !! k')
  end.

(** The bet at position [k] owns [ticket]. *)
Definition owns (bets : list Bet.t) (k : nat) (ticket : Z) : Prop :=
  exists b, bets !! k = Some b /\ range_lo bets k < ticket <= Bet.Index b.

(** [LocateBet] as the specification words it: the first bet, scanning from
    the front, whose [Index] is at least the ticket. *)
Definition first_bet_at_least (bets : list Bet.t) (ticket : Z) : option Bet.t :=
  List.find (fun b => ticket <=? Bet.Index b) bets.

(** ** Prize pool percentages

    The constants of the source, as [float64] values.  Go evaluates the
    constant expressions exactly and then converts; every value here is a
    dyadic rational with a short mantissa, so binary64 division by two gives
    the same numbers. *)
Definition first : float := 50%float.
Definition second : float := (first / 2)%float.
Definition third : float := (second / 2)%float.
Definition fourth : float := (third / 2)%float.
Definition fifth : float := (fourth / 2)%float.
Definition sixth : float := (fifth / 2)%float.
Definition seventh : float := (sixth / 2)%float.
Definition eighth : float := (seventh / 2)%float.
Definition btryFee : float := eighth.

Definition prizes : list float :=
  [first; second; third; fourth; fifth; sixth; seventh; eighth].

(** The rational number a finite binary64 value stands for. *)
Definition float_exact (x : float) : option Q :=
  match Prim2SF x with
  | S754_zero _ => Some 0%Q
  | S754_finite s m e =>
      let v := (inject_Z (Z.pos m) * Qpower 2 e)%Q in
      Some (if s then Qopp v else v)
  | _ => None
  end.

(** [float64(n)] for an integer [n]: the nearest binary64, ties to even. *)
Definition float64_of_Z (n : Z) : float :=
  SF2Prim (binary_normalize 53 1024 n 0 false).

(** [math.Round(x)]: "the nearest integer, rounding half away from zero";
    zeros, infinities and NaN are returned unchanged. *)
Definition math_Round (x : float) : float :=
  match Prim2SF x with
  | S754_finite s m e =>
      if 0 <=? e then x
      else
        let d := 2 ^ (- e) in
        let q := Z.pos m / d in
        let n := if d <=? 2 * (Z.pos m mod d) then q + 1 else q in
        SF2Prim (binary_normalize 53 1024 (if s then - n else n) 0 s)
  | _ => x
  end.

(** [uint64(x)] for a [float64]: the fraction is discarded.  Go leaves the
    conversion of negative, infinite, NaN and too large values to the
    implementation; [getWinners] only converts values between 0 and [2^63]. *)
Definition uint64_of_float64 (x : float) : Z :=
  match Prim2SF x with
  | S754_finite false m e =>
      uint64 (if 0 <=? e then Z.pos m * 2 ^ e else Z.pos m / 2 ^ (- e))
  | _ => 0
  end.

(** Go errors: [sql.ErrNoRows], any other error value, and
    [errors.Wrap(err, message)]. *)
Inductive error : Type :=
| ErrNoRows
| ErrOther (message : string)
| Wrap (err : error) (message : string).

(** [errors.Is(err, sql.ErrNoRows)]: looks through the wrappers. *)
Fixpoint errors_Is_ErrNoRows (err : error) : bool :=
  match err with
  | ErrNoRows => true
  | ErrOther _ => false
  | Wrap err' _ => errors_Is_ErrNoRows err'
  end.

(** ** [getWinners]

    The body of [for _, prize := range prizes], with the loop variables
    [winners] and [i] as accumulators. *)
Fixpoint getWinners_loop (ps : list float) (blockHash : list Byte.byte)
    (prizePool : Z) (bets : list Bet.t) (winners : list Winner.t) (i : Z)
  : go (list Winner.t) :=
  match ps with
  | [] => Returns winners
  | prize :: ps' =>
    go_bind (getWinningTicket blockHash i prizePool) (fun winningTicket =>
    let p := ((prize / 100) * float64_of_Z prizePool)%float in
    go_bind (getPublicKey bets winningTicket) (fun publicKey =>
    let winner :=
      {| Winner.PublicKey := publicKey;
         Winner.Ticket := winningTicket;
         Winner.Prizes := uint64_of_float64 (math_Round p);
         Winner.Expired := false |} in
    getWinners_loop ps' blockHash prizePool bets (winners ++ [winner]) (int (i - 2))))
  end.

Definition getWinners (blockHash : list Byte.byte) (prizePool : Z) (bets : list Bet.t)
  : go (list Winner.t * option error) :=
  if len bets <=? 0 then Returns ([], None)
  else
    let winners := [] in
    let i := int (len blockHash - 1) in
    go_bind (getWinners_loop prizes blockHash prizePool bets winners i) (fun winners =>
    Returns (winners, None)).

(** ** The collaborators: store, node, notifier, logger, payout channel

    [(T, error)] results of the collaborators. *)
Inductive result (A : Type) : Type :=
| Ok (a : A)
| Err (err : error).
Arguments Ok {A} a.
Arguments Err {A} err.

(** [chainrpc.BlockEpoch]: the hash as delivered, and the [uint32] height. *)
Record BlockEpoch := { Hash : list Byte.byte; Height : Z }.

(** What the package does to the outside world, in the order it does it:
    writes to the store, the send on [winnersCh], notifications and log lines.
    A write that the store answers with an error is still an event: the call
    was made. *)
Inductive event : Type :=
| EvDeleteHeight (height : Z)
| EvAddHeight (height : Z)
| EvBetsReset
| EvWinnersAdd (height : Z) (winners : list Winner.t)
| EvSendWinners (winners : list Winner.t)
| EvNotify (chatID : Z) (message : string)
| EvExpirePrizes (height : Z)
| EvNotificationsExpire
| EvLogInfof (format : string) (arg : Z)
| EvLogError (err : error).

Definition history := list event.

(** The store ([db.DB]) as the package sees it.  Its code is not part of the
    package: every answer is a parameter, and may depend on all that was done
    to the outside world so far. *)
Record DB := {
  Lotteries_GetNextHeight : history -> result Z;
  Lotteries_DeleteHeight : history -> Z -> option error;
  Lotteries_AddHeight : history -> Z -> option error;
  Bets_List : history -> Z -> Z -> bool -> result (list Bet.t);
  Bets_GetPrizePool : history -> result Z;
  Bets_Reset : history -> option error;
  Winners_Add : history -> Z -> list Winner.t -> option error;
  Winners_ExpirePrizes : history -> Z -> result Z;
  Notifications_Expire : history -> option error;
  Notifications_GetChatID : history -> string -> result Z
}.

(** The [Lottery] struct.  [lnd_GetInfo] is the block height in the answer of
    [lnd.GetInfo]; [Congratulations] is [fmt.Sprintf(notification.Congratulations, _)],
    a format string of another package; [map_range] is the order in which the
    Go runtime ranges over a map, which the language leaves open and which
    may differ from one loop to the next. *)
Record Lottery := {
  lnd_GetInfo : history -> result Z;
  db : DB;
  blocksDuration : Z;
  Congratulations : Z -> string;
  map_range : history -> gmap string Z -> list (string * Z)
}.

(** The runtime ranges over each entry of a map once. *)
Definition ranges_each_entry_once (l : Lottery) : Prop :=
  forall (h : history) (m : gmap string Z), map_range l h m ≡ₚ map_to_list m.

(** ** Effectful code: a history-passing monad over [go] *)
Definition M (A : Type) : Type := history -> go A * history.

Definition ret {A} (a : A) : M A := fun h => (Returns a, h).

Definition bind {A B} (c : M A) (k : A -> M B) : M B :=
  fun h =>
    match c h with
    | (Returns a, h') => k a h'
    | (Panics, h') => (Panics, h')
    | (Unfinished, h') => (Unfinished, h')
    end.

Notation "x <- c ;; k" := (bind c (fun x => k))
  (at level 100, c at next level, right associativity).
Notation "c ;;; k" := (bind c (fun _ => k))
  (at level 100, right associativity).

(** A read of a collaborator: answered from the history, no event. *)
Definition ask {A} (f : history -> A) : M A := fun h => (Returns (f h), h).

(** A call that acts on the outside world: answered from the history before
    the call, and recorded. *)
Definition call {A} (f : history -> A) (e : event) : M A :=
  fun h => (Returns (f h), h ++ [e]).

Definition emit (e : event) : M unit := call (fun _ => tt) e.

(** The outcome of a pure computation inside effectful code. *)
Definition lift {A} (c : go A) : M A := fun h => (c, h).

(** [if err := c; err != nil { return wrap(err) }]  *)
Definition check (c : M (option error)) (wrap : error -> error)
    (k : M (option error)) : M (option error) :=
  e <- c ;;
  match e with
  | Some err => ret (Some (wrap err))
  | None => k
  end.

(** [x, err := c; if err != nil { return wrap(err) }] *)
Definition fetch {A} (c : M (result A)) (wrap : error -> error)
    (k : A -> M (option error)) : M (option error) :=
  r <- c ;;
  match r with
  | Err err => ret (Some (wrap err))
  | Ok a => k a
  end.

(** ** [notifyWinners] *)

(** The first loop: one entry per public key, prizes added in [uint64]. *)
Definition aggregate_step (winnersMap : gmap string Z) (winner : Winner.t)
  : gmap string Z :=
  match winnersMap !! Winner.PublicKey winner with
  | Some prizes =>
      <[Winner.PublicKey winner := uint64 (prizes + Winner.Prizes winner)]> winnersMap
  | None => <[Winner.PublicKey winner := Winner.Prizes winner]> winnersMap
  end.

Definition aggregate (winners : list Winner.t) : gmap string Z :=
  foldl aggregate_step ∅ winners.

(** The body of the second loop, for one entry of the map. *)
Definition notifyEntry (l : Lottery) (entry : string * Z) : M unit :=
  let '(publicKey, prizes) := entry in
  r <- ask (fun h => Notifications_GetChatID (db l) h publicKey) ;;
  match r with
  | Err err =>
      if negb (errors_Is_ErrNoRows err)
      then emit (EvLogError (Wrap err "getting telegram chat ID"))
      else ret tt
  | Ok chatID =>
      let message := Congratulations l prizes in
      emit (EvNotify chatID message)
  end.

Fixpoint notifyEntries (l : Lottery) (entries : list (string * Z)) : M unit :=
  match entries with
  | [] => ret tt
  | entry :: entries' => notifyEntry l entry ;;; notifyEntries l entries'
  end.

Definition notifyWinners (l : Lottery) (winners : list Winner.t) : M unit :=
  let winnersMap := aggregate winners in
  entries <- ask (fun h => map_range l h winnersMap) ;;
  notifyEntries l entries.

(** ** [raffle] *)

(** The argument of [ExpirePrizes]: [block.Height - (l.blocksDuration * 3)],
    both operations in [uint32]. *)
Definition expiryThreshold (l : Lottery) (block : BlockEpoch) : Z :=
  uint32 (Height block - uint32 (blocksDuration l * 3)).

Definition raffle (l : Lottery) (block : BlockEpoch) : M (option error) :=
  fetch (ask (fun h => Bets_List (db l) h 0 0 false))
        (fun err => Wrap err "listing bets") (fun bets =>
  if len bets =? 0 then ret None
  else
  fetch (ask (Bets_GetPrizePool (db l))) id (fun prizePool =>
  check (call (Bets_Reset (db l)) EvBetsReset)
        (fun err => Wrap err "deleting bets") (
  gw <- lift (getWinners (Hash block) prizePool bets) ;;
  let '(winners, err) := gw in
  check (ret err) (fun err => Wrap err "getting winners") (
  check (call (fun h => Winners_Add (db l) h (Height block) winners)
              (EvWinnersAdd (Height block) winners))
        (fun err => Wrap err "saving winners") (
  emit (EvSendWinners winners) ;;;
  notifyWinners l winners ;;;
  (* Expire prizes assigned more than 3 days ago *)
  fetch (call (fun h => Winners_ExpirePrizes (db l) h (expiryThreshold l block))
              (EvExpirePrizes (expiryThreshold l block))) id (fun expiredPrizes =>
  emit (EvLogInfof "Expired prizes: %d" expiredPrizes) ;;;
  check (call (Notifications_Expire (db l)) EvNotificationsExpire) id (
  ret None))))))).

(** ** [Start]

    The part of [Start] before the goroutine.  [Err err] is [return err];
    [Ok nextHeight] is [return nil], with the goroutine started on the target
    [nextHeight]. *)
Definition Start (l : Lottery) : M (result Z) :=
  r <- ask (lnd_GetInfo l) ;;
  match r with
  | Err err => ret (Err err)
  | Ok info_BlockHeight =>
  r <- ask (Lotteries_GetNextHeight (db l)) ;;
  match r with
  | Err err => ret (Err err)
  | Ok nextHeight =>
    r <-
      (if (nextHeight =? 0) || (nextHeight <? info_BlockHeight) then
         e <-
           (if negb (nextHeight =? 0) && (nextHeight <? info_BlockHeight) then
              (* Remove next height to avoid showing one where no lottery has
                 taken place. *)
              call (fun h => Lotteries_DeleteHeight (db l) h nextHeight)
                   (EvDeleteHeight nextHeight)
            else ret None) ;;
         match e with
         | Some err => ret (Err err)
         | None =>
           let nextHeight := uint32 (info_BlockHeight + blocksDuration l) in
           e <- call (fun h => Lotteries_AddHeight (db l) h nextHeight)
                     (EvAddHeight nextHeight) ;;
           match e with
           | Some err => ret (Err err)
           | None => ret (Ok nextHeight)
           end
         end
       else ret (Ok nextHeight)) ;;
    match r with
    | Err err => ret (Err err)
    | Ok nextHeight =>
      emit (EvLogInfof "Next block height target: %d" nextHeight) ;;;
      ret (Ok nextHeight)
    end
  end
  end.

(** One iteration of the goroutine's [for] loop, for the block received from
    [blocksCh]; the value is [nextHeight] after the iteration. *)
Definition watch (l : Lottery) (nextHeight : Z) (block : BlockEpoch) : M Z :=
  if negb (Height block =? nextHeight) then ret nextHeight
  else
    (* Block hash bytes are reversed, correct it *)
    let block := {| Hash := rev (Hash block); Height := Height block |} in
    e <- raffle l block ;;
    match e with
    | Some err => emit (EvLogError err)
    | None => ret tt
    end ;;;
    (* Add next lottery height *)
    let nextHeight := uint32 (nextHeight + blocksDuration l) in
    e <- call (fun h => Lotteries_AddHeight (db l) h nextHeight)
              (EvAddHeight nextHeight) ;;
    match e with
    | Some err => emit (EvLogError err)
    | None => ret tt
    end ;;;
    emit (EvLogInfof "Next block height target: %d" nextHeight) ;;;
    ret nextHeight.

(** The goroutine on the blocks the channel delivers, in order. *)
Fixpoint watchLoop (l : Lottery) (nextHeight : Z) (blocks : list BlockEpoch) : M Z :=
  match blocks with
  | [] => ret nextHeight
  | block :: blocks' =>
    nextHeight' <- watch l nextHeight block ;;
    watchLoop l nextHeight' blocks'
  end.

(** ** [GetInfo]

    [Info] and the exported function [GetInfo(ctx, lnd, db)].  [lnd] is seen
    through the answer of [lnd.RemoteBalance], an [int64]; the division by the
    untyped constant [CapacityDivisor] is the [int64] one, which truncates.
    On an error the function returns the zero [Info]. *)
Record Info := { PrizePool : Z; Capacity : Z; NextHeight : Z }.

Definition CapacityDivisor : Z := 5.

Definition GetInfo (lnd_RemoteBalance : history -> result Z) (d : DB)
  : M (Info * option error) :=
  r <- ask lnd_RemoteBalance ;;
  match r with
  | Err err => ret ({| PrizePool := 0; Capacity := 0; NextHeight := 0 |}, Some err)
  | Ok remoteBalance =>
  r <- ask (Bets_GetPrizePool d) ;;
  match r with
  | Err err => ret ({| PrizePool := 0; Capacity := 0; NextHeight := 0 |}, Some err)
  | Ok prizePool =>
  r <- ask (Lotteries_GetNextHeight d) ;;
  match r with
  | Err err => ret ({| PrizePool := 0; Capacity := 0; NextHeight := 0 |}, Some err)
  | Ok nextHeight =>
    ret ({| PrizePool := int64 prizePool;
            Capacity := int64 (Z.quot remoteBalance CapacityDivisor);
            NextHeight := nextHeight |}, None)
  end
  end
  end.

(** ** Notions the properties are stated with *)

(** The percentages as exact rational numbers. *)
Definition percentages : list Q := omap float_exact prizes.

(** Addition in [uint64], from the left, as the first loop of [notifyWinners]
    adds the prizes of one public key. *)
Definition sum_uint64 (ps : list Z) : Z := foldl (fun acc p => uint64 (acc + p)) 0 ps.

(** The prizes of the winners with a given public key, in order. *)
Definition prizes_of (publicKey : string) (winners : list Winner.t) : list Z :=
  Winner.Prizes <$> filter (fun w => Winner.PublicKey w = publicKey) winners.

(** The events of one iteration of the second loop of [notifyWinners], when
    the store answers the lookup with [r]. *)
Definition delivery (l : Lottery) (r : result Z) (prizes : Z) : list event :=
  match r with
  | Ok chatID => [EvNotify chatID (Congratulations l prizes)]
  | Err err =>
      if errors_Is_ErrNoRows err then []
      else [EvLogError (Wrap err "getting telegram chat ID")]
  end.

Definition is_notification (e : event) : bool :=
  match e with
  | EvNotify _ _ => true
  | _ => false
  end.

(** The log line that follows a returned error, if any. *)
Definition logged (e : option error) : list event :=
  match e with
  | Some err => [EvLogError err]
  | None => []
  end.

(** ** Worked examples *)

Definition example_bets : list Bet.t :=
  [Bet.mk "A" 50; Bet.mk "B" 150; Bet.mk "C" 1000].

(** A 32-byte hash whose last window holds the bytes 3 and 5. *)
Definition example_hash : list Byte.byte :=
  repeat Byte.x00 30 ++ [Byte.x03; Byte.x05].

(** An in-memory store, read off the history: it starts with the target
    [target], the bets [bets] and the pool [pool]; [AddHeight] and
    [DeleteHeight] set and clear the target, [Reset] empties the round.  It
    knows the chat of participant "A" only, and accepts every write. *)
Definition stored_target (target : Z) (h : history) : Z :=
  foldl (fun t e =>
           match e with
           | EvAddHeight height => height
           | EvDeleteHeight height => if height =? t then 0 else t
           | _ => t
           end) target h.

Definition was_reset (h : history) : bool :=
  existsb (fun e => match e with EvBetsReset => true | _ => false end) h.

Definition example_db (target : Z) (bets : list Bet.t) (pool : Z) : DB := {|
  Lotteries_GetNextHeight := fun h => Ok (stored_target target h);
  Lotteries_DeleteHeight := fun _ _ => None;
  Lotteries_AddHeight := fun _ _ => None;
  Bets_List := fun h _ _ _ => Ok (if was_reset h then [] else bets);
  Bets_GetPrizePool := fun h => Ok (if was_reset h then 0 else pool);
  Bets_Reset := fun _ => None;
  Winners_Add := fun _ _ _ => None;
  Winners_ExpirePrizes := fun _ _ => Ok 0;
  Notifications_Expire := fun _ => None;
  Notifications_GetChatID :=
    fun _ publicKey => if String.eqb publicKey "A" then Ok 7 else Err ErrNoRows
|}.

(** The same store with a bet table that cannot be read. *)
Definition broken_db (target : Z) : DB := {|
  Lotteries_GetNextHeight := fun _ => Ok target;
  Lotteries_DeleteHeight := fun _ _ => None;
  Lotteries_AddHeight := fun _ _ => None;
  Bets_List := fun _ _ _ _ => Err (ErrOther "database is locked");
  Bets_GetPrizePool := fun _ => Ok 0;
  Bets_Reset := fun _ => None;
  Winners_Add := fun _ _ _ => None;
  Winners_ExpirePrizes := fun _ _ => Ok 0;
  Notifications_Expire := fun _ => None;
  Notifications_GetChatID := fun _ _ => Err ErrNoRows
|}.

(** A lottery on the store [d], with the node at height [H] and the step [D]. *)
Definition example_lottery (d : DB) (H D : Z) : Lottery := {|
  lnd_GetInfo := fun _ => Ok H;
  db := d;
  blocksDuration := D;
  Congratulations := fun prizes => "Congratulations, you won " +:+ pretty prizes;
  map_range := fun _ => map_to_list
|}.

(** The winners of the worked example: "B" wins tier 1, "A" the other seven. *)
Definition example_winners : list Winner.t :=
  Eval vm_compute in
    match getWinners example_hash 1000 example_bets with
    | Returns (winners, _) => winners
    | _ => []
    end.

(** An empty store in which every participant has the chat 7. *)
Definition open_db : DB := {|
  Lotteries_GetNextHeight := fun _ => Ok 0;
  Lotteries_DeleteHeight := fun _ _ => None;
  Lotteries_AddHeight := fun _ _ => None;
  Bets_List := fun _ _ _ _ => Ok [];
  Bets_GetPrizePool := fun _ => Ok 0;
  Bets_Reset := fun _ => None;
  Winners_Add := fun _ _ _ => None;
  Winners_ExpirePrizes := fun _ _ => Ok 0;
  Notifications_Expire := fun _ => None;
  Notifications_GetChatID := fun _ _ => Ok 7
|}.

(** What [notifyWinners] may add to the history: notifications and error
    log lines. *)
Definition is_note (e : event) : bool :=
  match e with
  | EvNotify _ _ | EvLogError _ => true
  | _ => false
  end.

(** Calls that set or clear the target height. *)
Definition is_height_write (e : event) : bool :=
  match e with
  | EvAddHeight _ | EvDeleteHeight _ => true
  | _ => false
  end.

Definition is_send (e : event) : bool :=
  match e with
  | EvSendWinners _ => true
  | _ => false
  end.

(** A store that accepts no write of a target height. *)
Definition readonly_db (target : Z) : DB := {|
  Lotteries_GetNextHeight := fun _ => Ok target;
  Lotteries_DeleteHeight := fun _ _ => Some (ErrOther "readonly database");
  Lotteries_AddHeight := fun _ _ => Some (ErrOther "readonly database");
  Bets_List := fun _ _ _ _ => Ok [];
  Bets_GetPrizePool := fun _ => Ok 0;
  Bets_Reset := fun _ => None;
  Winners_Add := fun _ _ _ => None;
  Winners_ExpirePrizes := fun _ _ => Ok 0;
  Notifications_Expire := fun _ => None;
  Notifications_GetChatID := fun _ _ => Err ErrNoRows
|}.

(** The store of the worked example with a winners table that rejects every
    batch. *)
Definition unsaved_db : DB := {|
  Lotteries_GetNextHeight := fun _ => Ok 100;
  Lotteries_DeleteHeight := fun _ _ => None;
  Lotteries_AddHeight := fun _ _ => None;
  Bets_List := fun _ _ _ _ => Ok example_bets;
  Bets_GetPrizePool := fun _ => Ok 1000;
  Bets_Reset := fun _ => None;
  Winners_Add := fun _ _ _ => Some (ErrOther "disk full");
  Winners_ExpirePrizes := fun _ _ => Ok 0;
  Notifications_Expire := fun _ => None;
  Notifications_GetChatID := fun _ _ => Err ErrNoRows
|}.

(** The heights handed to [AddHeight], in order. *)
Definition added_heights (evs : list event) : list Z :=
  omap (fun e => match e with EvAddHeight height => Some height | _ => None end) evs.

(** Bets that are sorted but tie on an [Index]. *)
Definition tied_bets : list Bet.t :=
  [Bet.mk "A" 50; Bet.mk "B" 50; Bet.mk "C" 100].

(** The bets are sorted by [Index], ties allowed. *)
Fixpoint ascending_from (lo : Z) (bets : list Bet.t) : bool :=
  match bets with
  | [] => true
  | b :: bets' => (lo <=? Bet.Index b) && ascending_from (Bet.Index b) bets'
  end.

(** * Properties *)

(** ** Machine integers *)

Lemma int_id (z : Z) : - 2 ^ 63 <= z < 2 ^ 63 -> int z = z.
Proof.
  intros Hz. unfold int, int64.
  rewrite Z.mod_small by lia. lia.
Qed.

Lemma uint64_id (z : Z) : 0 <= z < 2 ^ 64 -> uint64 z = z.
Proof. intros Hz. unfold uint64. now apply Z.mod_small. Qed.

Lemma uint32_id (z : Z) : 0 <= z < 2 ^ 32 -> uint32 z = z.
Proof. intros Hz. unfold uint32. now apply Z.mod_small. Qed.

Lemma uint32_range (z : Z) : 0 <= uint32 z < 2 ^ 32.
Proof. unfold uint32. apply Z.mod_pos_bound. lia. Qed.

Lemma uint64_range (z : Z) : 0 <= uint64 z < 2 ^ 64.
Proof. unfold uint64. apply Z.mod_pos_bound. lia. Qed.

(** [(left + right) / 2] of Go, which truncates, lies between its operands. *)
Lemma midpoint_between (left right : Z) :
  0 <= left <= right -> left <= Z.quot (left + right) 2 <= right.
Proof.
  intros H. rewrite Z.quot_div_nonneg by lia.
  split; [apply Z.div_le_lower_bound | apply Z.div_le_upper_bound]; lia.
Qed.

(** ** Slices *)

Lemma index_Returns {A} (s : list A) (i : Z) (a : A) :
  0 <= i -> s !! Z.to_nat i = Some a -> index s i = Returns a.
Proof.
  intros Hi Hs. unfold index.
  destruct (Z.ltb_spec i 0); [lia|]. now rewrite Hs.
Qed.

Lemma index_of_nat {A} (s : list A) (k : nat) (a : A) :
  s !! k = Some a -> index s (Z.of_nat k) = Returns a.
Proof.
  intros Hs. apply index_Returns; [lia|]. now rewrite Nat2Z.id.
Qed.

Lemma index_Panics {A} (s : list A) (i : Z) :
  i < 0 \/ len s <= i -> index s i = Panics.
Proof.
  intros Hi. unfold index, len in *.
  destruct (Z.ltb_spec i 0); [done|].
  rewrite lookup_ge_None_2; [done | lia].
Qed.

(** ** The bet list invariant *)

Section Ranges.
Implicit Types (bets : list Bet.t) (b : Bet.t).

Lemma ranges_from_bounds lo bets P k b :
  ranges_from lo bets P = true -> bets !! k = Some b ->
  lo < Bet.Index b <= P.
Proof.
  revert lo k b. induction bets as [|b0 bets IH]; intros lo k b Hr Hk; [done|].
  simpl in Hr. apply andb_true_iff in Hr as [Hlo Hr]. apply Z.ltb_lt in Hlo.
  assert (Bet.Index b0 <= P) as Hb0.
  { destruct bets as [|b1 bets'].
    - simpl in Hr. apply Z.eqb_eq in Hr. lia.
    - pose proof (IH _ 0%nat b1 Hr eq_refl). lia. }
  destruct k as [|k]; simpl in Hk.
  - injection Hk as <-. lia.
  - specialize (IH _ _ _ Hr Hk). lia.
Qed.

Lemma ranges_from_ascending lo bets P i j bi bj :
  ranges_from lo bets P = true ->
  bets !! i = Some bi -> bets !! j = Some bj -> (i < j)%nat ->
  Bet.Index bi < Bet.Index bj.
Proof.
  revert lo i j bi bj.
  induction bets as [|b0 bets IH]; intros lo i j bi bj Hr Hi Hj Hij; [done|].
  simpl in Hr. apply andb_true_iff in Hr as [_ Hr].
  destruct j as [|j]; [lia|]. simpl in Hj.
  destruct i as [|i]; simpl in Hi.
  - injection Hi as <-. pose proof (ranges_from_bounds _ _ _ _ _ Hr Hj). lia.
  - eapply IH; eauto. lia.
Qed.

Lemma ranges_from_last lo bets P :
  ranges_from lo bets P = true -> lo < P ->
  exists b, last bets = Some b /\ Bet.Index b = P.
Proof.
  revert lo. induction bets as [|b0 bets IH]; intros lo Hr HP; simpl in Hr.
  - apply Z.eqb_eq in Hr. lia.
  - apply andb_true_iff in Hr as [_ Hr].
    destruct bets as [|b1 bets'].
    + simpl in Hr. apply Z.eqb_eq in Hr. exists b0. done.
    + destruct (IH (Bet.Index b0) Hr) as (b & Hl & Hb).
      { pose proof (ranges_from_bounds _ _ _ 0%nat b1 Hr eq_refl). lia. }
      exists b. split; [|done]. exact Hl.
Qed.

(** The range of a position starts where the previous one ends. *)
Lemma range_lo_below bets k j b :
  bets !! j = Some b -> (j < k)%nat ->
  (forall i i' bi bi', bets !! i = Some bi -> bets !! i' = Some bi' ->
      (i < i')%nat -> Bet.Index bi < Bet.Index bi') ->
  (k <= length bets)%nat ->
  Bet.Index b <= range_lo bets k.
Proof.
  intros Hj Hjk Hasc Hk. destruct k as [|k]; [lia|]. simpl.
  destruct (lookup_lt_is_Some_2 bets k) as [bk Hbk]; [lia|].
  rewrite Hbk. simpl.
  destruct (decide (j = k)) as [->|Hne].
  - rewrite Hj in Hbk. injection Hbk as <-. lia.
  - assert (j < k)%nat by lia.
    specialize (Hasc _ _ _ _ Hj Hbk H). lia.
Qed.
End Ranges.

(** ** [getPublicKey]: the loop invariant *)

Lemma getPublicKey_loop_spec (bets : list Bet.t) (t : Z) :
  (forall i j bi bj, bets !! i = Some bi -> bets !! j = Some bj ->
      (i < j)%nat -> Bet.Index bi < Bet.Index bj) ->
  len bets <= 2 ^ 62 ->
  (exists b, last bets = Some b /\ t <= Bet.Index b) ->
  forall (fuel : nat) (left right : Z),
    0 <= left -> right < len bets -> left <= right + 1 ->
    right - left + 1 < Z.of_nat fuel ->
    (forall j b, bets !! j = Some b -> Z.of_nat j < left -> Bet.Index b < t) ->
    (forall j b, bets !! j = Some b -> right < Z.of_nat j -> t < Bet.Index b) ->
    exists k b,
      bets !! k = Some b /\ t <= Bet.Index b /\
      (forall j b', bets !! j = Some b' -> (j < k)%nat -> Bet.Index b' < t) /\
      getPublicKey_loop fuel bets t left right = Returns (Bet.PublicKey b).
Proof.
  intros Hasc Hlen (bl & Hlast & Hbl). unfold len in *.
  induction fuel as [|fuel IH]; intros left right Hl Hr Hlr Hfuel Hlo Hhi; [lia|].
  simpl. destruct (Z.leb_spec left right) as [Hle|Hgt].
  - (* one more iteration *)
    rewrite (int_id (left + right)) by lia.
    set (mid := Z.quot (left + right) 2).
    assert (left <= mid <= right) as Hmid by (apply midpoint_between; lia).
    destruct (lookup_lt_is_Some_2 bets (Z.to_nat mid)) as [bm Hbm]; [lia|].
    rewrite (index_Returns bets mid bm ltac:(lia) Hbm). simpl.
    destruct (Z.eqb_spec (Bet.Index bm) t) as [Heq|Hne].
    + exists (Z.to_nat mid), bm.
      split; [done|]. split; [lia|]. split; [|done].
      intros j b' Hj Hjm. specialize (Hasc _ _ _ _ Hj Hbm Hjm). lia.
    + destruct (Z.ltb_spec (Bet.Index bm) t) as [Hlt|Hge].
      * rewrite (int_id (mid + 1)) by lia.
        apply IH; try lia; [|done].
        intros j b Hj Hjm.
        destruct (decide (j = Z.to_nat mid)) as [->|Hjne].
        -- rewrite Hj in Hbm. injection Hbm as ->. done.
        -- assert (j < Z.to_nat mid)%nat as Hlt' by lia.
           specialize (Hasc _ _ _ _ Hj Hbm Hlt'). lia.
      * rewrite (int_id (mid - 1)) by lia.
        apply IH; try lia; [done|].
        intros j b Hj Hjm.
        destruct (decide (j = Z.to_nat mid)) as [->|Hjne].
        -- rewrite Hj in Hbm. injection Hbm as ->. lia.
        -- assert (Z.to_nat mid < j)%nat as Hlt' by lia.
           specialize (Hasc _ _ _ _ Hbm Hj Hlt'). lia.
  - (* the loop is left: [bets[left]] *)
    assert (Z.to_nat left < length bets)%nat as Hin.
    { rewrite last_lookup in Hlast.
      destruct (decide (Z.to_nat left < length bets)%nat) as [|Hout]; [done|].
      assert (Z.of_nat (pred (length bets)) < left) as Hp.
      { destruct bets; [done|]. simpl in *. lia. }
      specialize (Hlo _ _ Hlast Hp). lia. }
    destruct (lookup_lt_is_Some_2 bets (Z.to_nat left) Hin) as [b Hb].
    rewrite (index_Returns _ _ _ Hl Hb). simpl.
    exists (Z.to_nat left), b.
    split; [done|]. split; [|split; [|done]].
    + assert (right < Z.of_nat (Z.to_nat left)) as Hrl by lia.
      specialize (Hhi _ _ Hb Hrl). lia.
    + intros j b' Hj Hjl. apply (Hlo _ _ Hj). lia.
Qed.

(** Whatever the order of the bets, the search stays inside the slice as long
    as the last bet reaches the ticket. *)
Lemma getPublicKey_loop_in_bounds (bets : list Bet.t) (t : Z) :
  len bets <= 2 ^ 62 ->
  (exists b, last bets = Some b /\ t <= Bet.Index b) ->
  forall (fuel : nat) (left right : Z),
    0 <= left < len bets -> right < len bets -> left <= right + 1 ->
    right - left + 1 < Z.of_nat fuel ->
    exists b, b ∈ bets /\
      getPublicKey_loop fuel bets t left right = Returns (Bet.PublicKey b).
Proof.
  intros Hlen (bl & Hlast & Hbl). unfold len in *.
  induction fuel as [|fuel IH]; intros left right Hl Hr Hlr Hfuel; [lia|].
  simpl. destruct (Z.leb_spec left right) as [Hle|Hgt].
  - rewrite (int_id (left + right)) by lia.
    set (mid := Z.quot (left + right) 2).
    assert (left <= mid <= right) as Hmid by (apply midpoint_between; lia).
    destruct (lookup_lt_is_Some_2 bets (Z.to_nat mid)) as [bm Hbm]; [lia|].
    rewrite (index_Returns bets mid bm ltac:(lia) Hbm). simpl.
    destruct (Z.eqb_spec (Bet.Index bm) t) as [Heq|Hne].
    + exists bm. split; [|done]. eapply list_elem_of_lookup_2; eauto.
    + destruct (Z.ltb_spec (Bet.Index bm) t) as [Hlt|Hge].
      * rewrite (int_id (mid + 1)) by lia.
        assert (mid + 1 < Z.of_nat (length bets)) as Hnotlast.
        { destruct (decide (Z.to_nat mid = pred (length bets))) as [Hm|Hm]; [|lia].
          rewrite last_lookup, <- Hm, Hbm in Hlast. injection Hlast as ->. lia. }
        apply IH; lia.
      * rewrite (int_id (mid - 1)) by lia. apply IH; lia.
  - destruct (lookup_lt_is_Some_2 bets (Z.to_nat left)) as [b Hb]; [lia|].
    rewrite (index_Returns bets left b ltac:(lia) Hb). simpl.
    exists b. split; [|done]. eapply list_elem_of_lookup_2; eauto.
Qed.

Lemma getPublicKey_in_bounds (bets : list Bet.t) (t : Z) :
  len bets <= 2 ^ 62 ->
  (exists b, last bets = Some b /\ t <= Bet.Index b) ->
  exists b, b ∈ bets /\ getPublicKey bets t = Returns (Bet.PublicKey b).
Proof.
  intros Hlen Hlast. unfold getPublicKey.
  assert (0 < len bets) as Hpos.
  { destruct Hlast as (b & Hl & _). destruct bets; [done|]. unfold len. simpl. lia. }
  unfold len in *. rewrite int_id by lia.
  apply getPublicKey_loop_in_bounds; unfold len; try done; lia.
Qed.

(** The fuel [getPublicKey] gives its loop is enough on every slice and every
    ticket: the search returns or panics. *)
Lemma getPublicKey_loop_finishes (bets : list Bet.t) (t : Z) :
  len bets <= 2 ^ 62 ->
  forall (fuel : nat) (left right : Z),
    0 <= left -> right < len bets -> left <= right + 1 ->
    right - left + 1 < Z.of_nat fuel ->
    getPublicKey_loop fuel bets t left right <> Unfinished.
Proof.
  intros Hlen. unfold len in *.
  induction fuel as [|fuel IH]; intros left right Hl Hr Hlr Hfuel; [lia|].
  simpl. destruct (Z.leb_spec left right) as [Hle|Hgt].
  - rewrite (int_id (left + right)) by lia.
    set (mid := Z.quot (left + right) 2).
    assert (left <= mid <= right) as Hmid by (apply midpoint_between; lia).
    destruct (lookup_lt_is_Some_2 bets (Z.to_nat mid)) as [bm Hbm]; [lia|].
    rewrite (index_Returns bets mid bm ltac:(lia) Hbm). simpl.
    destruct (Bet.Index bm =? t); [done|].
    destruct (Bet.Index bm <? t).
    + rewrite (int_id (mid + 1)) by lia. apply IH; lia.
    + rewrite (int_id (mid - 1)) by lia. apply IH; lia.
  - unfold index. destruct (left <? 0); [done|].
    now destruct (bets !! Z.to_nat left).
Qed.

Lemma getPublicKey_finishes (bets : list Bet.t) (t : Z) :
  len bets <= 2 ^ 62 -> getPublicKey bets t <> Unfinished.
Proof.
  intros Hlen. unfold getPublicKey.
  destruct bets as [|b bets]; [vm_compute; discriminate|].
  rewrite int_id by (unfold len in *; simpl length in *; lia).
  apply getPublicKey_loop_finishes; unfold len in *; simpl length in *; lia.
Qed.

(** The scan from the front finds the bet a position is the first to reach. *)
Lemma first_bet_at_least_lookup (bets : list Bet.t) (t : Z) (k : nat) (b : Bet.t) :
  bets !! k = Some b -> t <= Bet.Index b ->
  (forall j b', bets !! j = Some b' -> (j < k)%nat -> Bet.Index b' < t) ->
  first_bet_at_least bets t = Some b.
Proof.
  unfold first_bet_at_least. revert k.
  induction bets as [|b0 bets IH]; intros k Hk Hb Hbelow; [done|].
  simpl. destruct k as [|k]; simpl in Hk.
  - injection Hk as ->. destruct (Z.leb_spec t (Bet.Index b)); [done | lia].
  - pose proof (Hbelow 0%nat b0 eq_refl ltac:(lia)) as Hb0.
    destruct (Z.leb_spec t (Bet.Index b0)); [lia|].
    apply (IH k); [done | done |].
    intros j b' Hj Hjk. apply (Hbelow (S j) b' Hj). lia.
Qed.

(** C1.  For every bet list sorted ascending by [Index] whose indices cut
    [[1, P]] into contiguous disjoint ranges (the last [Index] is [P]) and every
    ticket in [[1, P]], the binary search [getPublicKey] returns the public key
    of the first bet whose [Index] is at least the ticket; that bet is the one
    bet owning the ticket, and no access falls outside the slice: the call
    returns, it does not panic.  (Slices of more than [2^62] bets do not fit
    in memory; the bound keeps [left + right] inside [int].) *)
Theorem getPublicKey_locates_owner (bets : list Bet.t) (P ticket : Z) :
  partitions bets P = true ->
  1 <= ticket <= P ->
  len bets <= 2 ^ 62 ->
  exists (k : nat) (b : Bet.t),
    bets !! k = Some b /\
    getPublicKey bets ticket = Returns (Bet.PublicKey b) /\
    first_bet_at_least bets ticket = Some b /\
    owns bets k ticket /\
    (forall k', owns bets k' ticket -> k' = k).
Proof.
  intros Hpart Hticket Hlen. unfold partitions in Hpart.
  assert (forall i j bi bj, bets !! i = Some bi -> bets !! j = Some bj ->
            (i < j)%nat -> Bet.Index bi < Bet.Index bj) as Hasc'.
  { intros i j bi bj. apply (ranges_from_ascending _ _ _ _ _ _ _ Hpart). }
  destruct (ranges_from_last 0 bets P Hpart ltac:(lia)) as (bl & Hlast & Hbl).
  assert (0 < len bets) as Hpos.
  { destruct bets; [done|]. unfold len. simpl. lia. }
  destruct (getPublicKey_loop_spec bets ticket Hasc' Hlen
              ltac:(exists bl; split; [done | lia])
              (S (length bets)) 0 (len bets - 1))
    as (k & b & Hk & Hb & Hbelow & Hrun);
    try (unfold len in *; lia);
    try (intros j b0 Hj Hcmp; apply lookup_lt_Some in Hj; unfold len in *; lia).
  exists k, b. split; [done|]. split.
  { unfold getPublicKey. rewrite int_id by (unfold len in *; lia). exact Hrun. }
  split; [eapply first_bet_at_least_lookup; eauto|].
  assert (range_lo bets k < ticket) as Hlo.
  { destruct k as [|k]; simpl; [lia|].
    destruct (lookup_lt_is_Some_2 bets k) as [bk Hbk].
    { apply lookup_lt_Some in Hk. lia. }
    rewrite Hbk. simpl. apply (Hbelow k bk Hbk). lia. }
  split; [exists b; split; [done | lia]|].
  intros k' (b' & Hk' & Hlo' & Hhi').
  destruct (Nat.lt_trichotomy k' k) as [Hlt|[Heq|Hgt]]; [|done|].
  - specialize (Hbelow _ _ Hk' Hlt). lia.
  - pose proof (lookup_lt_Some _ _ _ Hk') as Hin.
    pose proof (range_lo_below bets k' k b Hk Hgt Hasc' ltac:(lia)). lia.
Qed.

(** C1 at the bets and ticket of the worked example: "B" owns ticket 126. *)
Lemma getPublicKey_locates_owner_example :
  partitions example_bets 1000 = true /\
  1 <= 126 <= 1000 /\
  len example_bets <= 2 ^ 62 /\
  exists (k : nat) (b : Bet.t),
    example_bets !! k = Some b /\
    getPublicKey example_bets 126 = Returns (Bet.PublicKey b) /\
    first_bet_at_least example_bets 126 = Some b /\
    owns example_bets k 126 /\
    (forall k', owns example_bets k' 126 -> k' = k).
Proof.
  split; [reflexivity|]. split; [lia|]. split; [vm_compute; discriminate|].
  apply (getPublicKey_locates_owner example_bets 1000 126);
    [reflexivity | lia | vm_compute; discriminate].
Defined.

(** ** [getWinningTicket] *)

Lemma byte_range (b : Byte.byte) : 0 <= Z.of_N (Byte.to_N b) <= 255.
Proof. pose proof (Byte.to_N_bounded b). lia. Qed.

(** The modulus [big.NewInt(int64(prizePool))] ends up with: the pool itself
    up to [2^63], and [2^64 - prizePool] above. *)
Lemma abs_int64_pool (P : Z) :
  1 <= P < 2 ^ 64 ->
  Z.abs (int64 P) = (if P <=? 2 ^ 63 then P else 2 ^ 64 - P) /\
  1 <= Z.abs (int64 P) <= P /\ Z.abs (int64 P) <= 2 ^ 63.
Proof.
  intros HP. unfold int64.
  destruct (Z.leb_spec P (2 ^ 63)) as [Hle|Hgt].
  - destruct (Z.eq_dec P (2 ^ 63)) as [->|Hne]; [vm_compute; intuition congruence|].
    rewrite Z.mod_small by lia. lia.
  - replace (P + 2 ^ 63) with ((P - 2 ^ 63) + 1 * 2 ^ 64) by lia.
    rewrite Z.mod_add by lia. rewrite Z.mod_small by lia. lia.
Qed.

(** The ticket only depends on the two bytes of the window. *)
Lemma getWinningTicket_window (hash : list Byte.byte) (i P : Z) (b1 b2 : Byte.byte) :
  index hash i = Returns b1 -> index hash (int (i - 1)) = Returns b2 ->
  getWinningTicket hash i P = getWinningTicket [b2; b1] 1 P.
Proof. intros H1 H2. unfold getWinningTicket. rewrite H1, H2. reflexivity. Qed.

Lemma getWinningTicket_value (b1 b2 : Byte.byte) (P : Z) :
  1 <= P < 2 ^ 64 ->
  let R := (Z.of_N (Byte.to_N b1) ^ Z.of_N (Byte.to_N b2)) mod Z.abs (int64 P) in
  getWinningTicket [b2; b1] 1 P = Returns (R + 1) /\ 1 <= R + 1 <= P.
Proof.
  intros HP R. destruct (abs_int64_pool P HP) as (_ & Habs & Habs').
  assert (0 <= R < Z.abs (int64 P)) as HR by (apply Z.mod_pos_bound; lia).
  split; [|lia].
  unfold getWinningTicket.
  change (index [b2; b1] 1) with (Returns b1).
  change (index [b2; b1] (int (1 - 1))) with (Returns b2).
  cbn [go_bind]. f_equal.
  unfold big_Exp. destruct (Z.eqb_spec (int64 P) 0) as [H0|_]; [lia|].
  assert (int64 (Z.of_N (Byte.to_N b1)) = Z.of_N (Byte.to_N b1)) as ->.
  { apply int_id. pose proof (byte_range b1). lia. }
  fold R. unfold big_Uint64. rewrite Z.abs_eq by lia.
  rewrite (Z.mod_small R) by lia. apply uint64_id. lia.
Qed.

(** For a pool that fits [int64] the ticket is [num1 ^ num2 mod P + 1], with
    the byte at the higher index as the base; for every pool it lies in
    [[1, P]]. *)
Lemma getWinningTicket_modexp (hash : list Byte.byte) (i P : Z) (b1 b2 : Byte.byte) :
  index hash i = Returns b1 -> index hash (int (i - 1)) = Returns b2 ->
  1 <= P < 2 ^ 64 ->
  exists ticket,
    getWinningTicket hash i P = Returns ticket /\
    1 <= ticket <= P /\
    (P <= 2 ^ 63 ->
     ticket = (Z.of_N (Byte.to_N b1) ^ Z.of_N (Byte.to_N b2)) mod P + 1).
Proof.
  intros H1 H2 HP. rewrite (getWinningTicket_window _ _ _ _ _ H1 H2).
  destruct (getWinningTicket_value b1 b2 P HP) as [Hrun Hrange].
  eexists. split; [exact Hrun|]. split; [exact Hrange|].
  intros Hle. destruct (abs_int64_pool P HP) as (-> & _).
  destruct (Z.leb_spec P (2 ^ 63)); [done | lia].
Qed.

(** C2, at a pool above [int64]: with the pool [2^64 - 1], base byte 2 and
    exponent byte 1, [getWinningTicket] returns 1, where [2 ^ 1 mod P + 1] is
    3.  The modulus handed to [Exp] is [int64(prizePool) = -1], of magnitude 1. *)
Theorem getWinningTicket_pool_above_int64 :
  getWinningTicket [Byte.x01; Byte.x02] 1 (2 ^ 64 - 1) = Returns 1 /\
  int64 (2 ^ 64 - 1) = -1 /\
  (2 ^ 1) mod (2 ^ 64 - 1) + 1 = 3.
Proof. vm_compute. repeat split; reflexivity. Qed.

(** ** [getWinners] *)

Lemma getWinners_loop_spec (ps : list float) (blockHash : list Byte.byte)
    (P : Z) (bets : list Bet.t) :
  1 <= P < 2 ^ 64 ->
  len bets <= 2 ^ 62 ->
  (exists b, last bets = Some b /\ P <= Bet.Index b) ->
  len blockHash <= 2 ^ 62 ->
  forall (acc : list Winner.t) (i : Z),
    2 * len ps - 1 <= i < len blockHash ->
    exists ws,
      getWinners_loop ps blockHash P bets acc i = Returns (acc ++ ws) /\
      length ws = length ps /\
      forall (k : nat) (prize : float), ps !! k = Some prize ->
        exists w b1 b2,
          ws !! k = Some w /\
          blockHash !! Z.to_nat (i - 2 * Z.of_nat k) = Some b1 /\
          blockHash !! Z.to_nat (i - 2 * Z.of_nat k - 1) = Some b2 /\
          getWinningTicket [b2; b1] 1 P = Returns (Winner.Ticket w) /\
          1 <= Winner.Ticket w <= P /\
          getPublicKey bets (Winner.Ticket w) = Returns (Winner.PublicKey w) /\
          Winner.Prizes w =
            uint64_of_float64 (math_Round ((prize / 100) * float64_of_Z P)%float) /\
          Winner.Expired w = false.
Proof.
  intros HP Hbets Hlast Hhash. unfold len in *.
  induction ps as [|prize ps IH]; intros acc i Hi.
  - exists []. simpl. rewrite app_nil_r. split; [done|]. split; [done|]. intros k p Hk. done.
  - simpl length in Hi.
    destruct (lookup_lt_is_Some_2 blockHash (Z.to_nat i)) as [b1 Hb1]; [lia|].
    destruct (lookup_lt_is_Some_2 blockHash (Z.to_nat (i - 1))) as [b2 Hb2]; [lia|].
    pose proof (index_Returns blockHash i b1 ltac:(lia) Hb1) as Hi1.
    pose proof (index_Returns blockHash (i - 1) b2 ltac:(lia) Hb2) as Hi2.
    rewrite <- (int_id (i - 1)) in Hi2 at 1 by lia.
    destruct (getWinningTicket_value b1 b2 P HP) as [Hticket Hrange].
    set (t := (Z.of_N (Byte.to_N b1) ^ Z.of_N (Byte.to_N b2)) mod Z.abs (int64 P) + 1) in *.
    destruct (getPublicKey_in_bounds bets t Hbets) as (b & Hb & Hpk).
    { destruct Hlast as (bl & Hl & Hbl). exists bl. split; [done | lia]. }
    cbn [getWinners_loop].
    rewrite (getWinningTicket_window _ _ _ _ _ Hi1 Hi2), Hticket. cbn [go_bind].
    rewrite Hpk. cbn [go_bind].
    rewrite (int_id (i - 2)) by lia.
    match goal with |- context [acc ++ [?w0]] => set (w := w0) end.
    destruct (IH (acc ++ [w]) (i - 2)) as (ws & Hrun & Hlen & Hws); [lia|].
    exists (w :: ws). split; [|split].
    + rewrite Hrun. now rewrite <- app_assoc.
    + simpl. now rewrite Hlen.
    + intros [|k] p Hk; simpl in Hk.
      * injection Hk as <-. exists w, b1, b2.
        replace (i - 2 * Z.of_nat 0) with i by lia.
        repeat (split; [done|]). done.
      * destruct (Hws k p Hk) as (w' & c1 & c2 & Hw' & Hc1 & Hc2 & Hrest).
        exists w', c1, c2. split; [done|].
        replace (i - 2 * Z.of_nat (S k)) with (i - 2 - 2 * Z.of_nat k) by lia.
        done.
Qed.

(** The loop reads the hash at [i], [i - 1], ..., [i - 2 * len(ps) + 1] only. *)
Lemma getWinners_loop_ext (ps : list float) (hash hash' : list Byte.byte)
    (P : Z) (bets : list Bet.t) :
  forall (acc : list Winner.t) (i : Z),
    - 2 ^ 62 <= i - 2 * len ps -> i < 2 ^ 62 ->
    (forall z, i - 2 * len ps < z <= i -> index hash z = index hash' z) ->
    getWinners_loop ps hash P bets acc i = getWinners_loop ps hash' P bets acc i.
Proof.
  unfold len. induction ps as [|prize ps IH]; intros acc i Hlo Hhi Hsame; [done|].
  simpl length in *. cbn [getWinners_loop].
  assert (getWinningTicket hash i P = getWinningTicket hash' i P) as ->.
  { unfold getWinningTicket. rewrite (int_id (i - 1)) by lia.
    rewrite (Hsame i) by lia. rewrite (Hsame (i - 1)) by lia. done. }
  destruct (getWinningTicket hash' i P) as [t| |]; cbn [go_bind]; try done.
  destruct (getPublicKey bets t) as [pk| |]; cbn [go_bind]; try done.
  rewrite (int_id (i - 2)) by lia.
  apply IH; try lia. intros z Hz. apply Hsame. lia.
Qed.

Lemma getWinners_ext (hash hash' : list Byte.byte) (P : Z) (bets : list Bet.t) :
  length hash = 32%nat -> length hash' = 32%nat ->
  drop 16 hash = drop 16 hash' ->
  getWinners hash P bets = getWinners hash' P bets.
Proof.
  intros H32 H32' Hdrop. unfold getWinners, len. rewrite H32, H32'.
  destruct (_ <=? 0); [done|]. f_equal.
  rewrite (int_id (Z.of_nat 32 - 1)) by lia.
  apply getWinners_loop_ext.
  - unfold len. simpl. lia.
  - lia.
  - intros z Hz. unfold len in Hz. simpl in Hz. unfold index.
    destruct (Z.ltb_spec z 0); [done|].
    replace (Z.to_nat z) with (16 + (Z.to_nat z - 16))%nat by lia.
    now rewrite <- !lookup_drop, Hdrop.
Qed.

(** C3.  With the pool 1000 and a 32-byte hash whose last byte is 5 and whose
    last but one byte is 3, the ticket of tier 1 is [5 ^ 3 mod 1000 + 1 = 126]
    (the last byte is the base: the other order would give 244), the binary
    search on the bets A:50, B:150, C:1000 returns "B", and the first winner
    [getWinners] appends is "B" with ticket 126 and half of the pool. *)
Theorem example_tier1_winner_is_B (prefix : list Byte.byte) :
  length prefix = 30%nat ->
  getWinningTicket (prefix ++ [Byte.x03; Byte.x05]) 31 1000 = Returns 126 /\
  5 ^ 3 mod 1000 + 1 = 126 /\
  3 ^ 5 mod 1000 + 1 = 244 /\
  getPublicKey example_bets 126 = Returns "B" /\
  exists rest,
    getWinners (prefix ++ [Byte.x03; Byte.x05]) 1000 example_bets =
      Returns (Winner.mk "B" 126 500 false :: rest, None).
Proof.
  intros Hlen.
  set (hash := prefix ++ [Byte.x03; Byte.x05]).
  assert (length hash = 32%nat) as H32 by (subst hash; rewrite length_app, Hlen; done).
  assert (hash !! 31%nat = Some Byte.x05) as H31.
  { subst hash. rewrite lookup_app_r by lia. now rewrite Hlen. }
  assert (hash !! 30%nat = Some Byte.x03) as H30.
  { subst hash. rewrite lookup_app_r by lia. now rewrite Hlen. }
  assert (getWinningTicket hash 31 1000 = Returns 126) as Hticket.
  { rewrite (getWinningTicket_window hash 31 1000 Byte.x05 Byte.x03).
    - reflexivity.
    - apply (index_of_nat hash 31 _ H31).
    - apply (index_of_nat hash 30 _ H30). }
  split; [exact Hticket|]. split; [reflexivity|]. split; [reflexivity|].
  split; [reflexivity|].
  destruct (getWinners_loop_spec prizes hash 1000 example_bets) with (acc := @nil Winner.t) (i := 31)
    as (ws & Hrun & Hws & Hall);
    try (unfold len; rewrite ?H32; simpl; lia).
  { exists (Bet.mk "C" 1000). split; [reflexivity | simpl; lia]. }
  destruct (Hall 0%nat first eq_refl) as (w & b1 & b2 & Hw & Hb1 & Hb2 & Ht & _ & Hpk & Hprize & Hexp).
  change (Z.to_nat (31 - 2 * Z.of_nat 0)) with 31%nat in Hb1.
  change (Z.to_nat (31 - 2 * Z.of_nat 0 - 1)) with 30%nat in Hb2.
  rewrite H31 in Hb1. rewrite H30 in Hb2. injection Hb1 as <-. injection Hb2 as <-.
  change (getWinningTicket [Byte.x03; Byte.x05] 1 1000) with (@Returns Z 126) in Ht.
  injection Ht as Ht. rewrite <- Ht in Hpk.
  change (getPublicKey example_bets 126) with (Returns "B"%string) in Hpk.
  injection Hpk as Hpk.
  destruct ws as [|w0 ws]; [done|]. simpl in Hw. injection Hw as ->.
  vm_compute in Hprize.
  exists ws.
  unfold getWinners, len. rewrite H32. simpl (_ <=? _).
  cbn match. rewrite (int_id (Z.of_nat 32 - 1)) by lia.
  change (Z.of_nat 32 - 1) with 31. rewrite Hrun. simpl.
  destruct w as [pk t p e]. simpl in *. now subst.
Qed.

(** C3 at the hash of the worked example. *)
Lemma example_tier1_winner_is_B_example :
  length (repeat Byte.x00 30) = 30%nat /\
  getWinningTicket example_hash 31 1000 = Returns 126 /\
  getPublicKey example_bets 126 = Returns "B" /\
  exists rest,
    getWinners example_hash 1000 example_bets =
      Returns (Winner.mk "B" 126 500 false :: rest, None).
Proof.
  split; [reflexivity|].
  destruct (example_tier1_winner_is_B (repeat Byte.x00 30) eq_refl)
    as (Ht & _ & _ & Hpk & _).
  split; [exact Ht|]. split; [exact Hpk|].
  eexists. vm_compute. reflexivity.
Defined.

(** ** The prize tiers *)

(** C9.  The 8 percentages are 50, 25, 12.5, 6.25, 3.125, 1.5625, 0.78125 and
    0.390625: each tier is half the previous one, the [float64] values stand
    for exactly these rational numbers, and they add up to exactly 99.609375,
    as rational numbers and in [float64] addition alike. *)
Theorem prizes_halve_and_sum :
  prizes = [50; 25; 12.5; 6.25; 3.125; 1.5625; 0.78125; 0.390625]%float /\
  Forall2 (fun previous next => next = (previous / 2)%float)
          (take 7 prizes) (drop 1 prizes) /\
  Forall2 Qeq percentages [50; 25; 12.5; 6.25; 3.125; 1.5625; 0.78125; 0.390625]%Q /\
  (foldr Qplus 0 percentages == 99.609375)%Q /\
  foldl PrimFloat.add 0%float prizes = 99.609375%float.
Proof.
  split; [reflexivity|]. split; [repeat constructor|].
  split; [|split; [|reflexivity]].
  - vm_compute. repeat constructor.
  - vm_compute. reflexivity.
Qed.

(** ** The height scheduler *)

(** C4.  On startup with chain height [H] and persisted target [T]: if [T]
    is unset (0), [Start] persists the target [H + D]; if [H > T], it deletes
    the stale target and persists [H + D]; otherwise it writes nothing and
    keeps [T].  The sum is the [uint32] one, which is [H + D] whenever that
    fits.  (Each case is stated for a store that accepts the writes.) *)
Theorem Start_reconciles_target (l : Lottery) (h : history) (H T : Z) :
  lnd_GetInfo l h = Ok H ->
  Lotteries_GetNextHeight (db l) h = Ok T ->
  (T = 0 ->
   Lotteries_AddHeight (db l) h (uint32 (H + blocksDuration l)) = None ->
   Start l h =
     (Returns (Ok (uint32 (H + blocksDuration l))),
      h ++ [EvAddHeight (uint32 (H + blocksDuration l));
            EvLogInfof "Next block height target: %d" (uint32 (H + blocksDuration l))])) /\
  (T <> 0 -> T < H ->
   Lotteries_DeleteHeight (db l) h T = None ->
   Lotteries_AddHeight (db l) (h ++ [EvDeleteHeight T])
     (uint32 (H + blocksDuration l)) = None ->
   Start l h =
     (Returns (Ok (uint32 (H + blocksDuration l))),
      h ++ [EvDeleteHeight T;
            EvAddHeight (uint32 (H + blocksDuration l));
            EvLogInfof "Next block height target: %d" (uint32 (H + blocksDuration l))])) /\
  (T <> 0 -> H <= T ->
   Start l h = (Returns (Ok T), h ++ [EvLogInfof "Next block height target: %d" T])) /\
  (0 <= H + blocksDuration l < 2 ^ 32 ->
   uint32 (H + blocksDuration l) = H + blocksDuration l).
Proof.
  intros HH HT. unfold Start, bind, ask, call, emit, ret. rewrite HH, HT.
  split; [|split; [|split]].
  - intros -> Hadd. simpl. rewrite Hadd. now rewrite <- app_assoc.
  - intros Hne Hlt Hdel Hadd.
    destruct (Z.eqb_spec T 0) as [|_]; [done|].
    destruct (Z.ltb_spec T H) as [_|]; [|lia].
    simpl. rewrite Hdel, Hadd. now rewrite <- !app_assoc.
  - intros Hne Hle.
    destruct (Z.eqb_spec T 0) as [|_]; [done|].
    destruct (Z.ltb_spec T H) as [|_]; [lia|]. done.
  - apply uint32_id.
Qed.

(** C4 at the heights of the specification: with the target 100 and the step
    50, a node at height 100 leaves the target at 100 and writes nothing; a
    node at height 151 deletes the target 100 and persists 201. *)
Lemma Start_reconciles_target_example :
  Start (example_lottery (example_db 100 [] 0) 100 50) [] =
    (Returns (Ok 100), [EvLogInfof "Next block height target: %d" 100]) /\
  Start (example_lottery (example_db 100 [] 0) 151 50) [] =
    (Returns (Ok 201),
     [EvDeleteHeight 100; EvAddHeight 201;
      EvLogInfof "Next block height target: %d" 201]).
Proof.
  split.
  - apply (Start_reconciles_target
             (example_lottery (example_db 100 [] 0) 100 50) [] 100 100
             eq_refl eq_refl); [discriminate | reflexivity].
  - apply (Start_reconciles_target
             (example_lottery (example_db 100 [] 0) 151 50) [] 151 100
             eq_refl eq_refl); [discriminate | reflexivity | reflexivity | reflexivity].
Defined.

(** ** The block watcher *)

Lemma watch_after_raffle (l : Lottery) (nextHeight : Z) (block : BlockEpoch)
    (h h1 : history) (r : option error) :
  Height block = nextHeight ->
  raffle l {| Hash := rev (Hash block); Height := Height block |} h = (Returns r, h1) ->
  watch l nextHeight block h =
    (Returns (uint32 (nextHeight + blocksDuration l)),
     (h1 ++ logged r)
       ++ [EvAddHeight (uint32 (nextHeight + blocksDuration l))]
       ++ logged (Lotteries_AddHeight (db l) (h1 ++ logged r)
                    (uint32 (nextHeight + blocksDuration l)))
       ++ [EvLogInfof "Next block height target: %d"
             (uint32 (nextHeight + blocksDuration l))]).
Proof.
  intros Hh Hraffle. unfold watch.
  destruct (Z.eqb_spec (Height block) nextHeight) as [_|]; [|done].
  cbn [negb]. unfold bind at 1. rewrite Hraffle.
  unfold bind, emit, call, ret.
  destruct r as [err|]; cbn [logged]; rewrite ?app_nil_r;
    destruct (Lotteries_AddHeight _ _ _) as [err'|]; cbn [logged];
    rewrite <- ?app_assoc; reflexivity.
Qed.

(** C5.  When the block of the target height arrives and the raffle returns,
    with or without an error, the iteration of the watcher ends with the
    target [nextHeight + D] (in [uint32]), after a call of [AddHeight] on it.
    An error of the raffle is logged and goes no further: the loop carries
    on with the next block and the new target. *)
Theorem watch_advances_target (l : Lottery) (nextHeight : Z) (block : BlockEpoch)
    (h h1 : history) (r : option error) :
  Height block = nextHeight ->
  raffle l {| Hash := rev (Hash block); Height := Height block |} h = (Returns r, h1) ->
  exists h2 tail,
    watch l nextHeight block h =
      (Returns (uint32 (nextHeight + blocksDuration l)), h2) /\
    h2 = h1 ++ logged r
            ++ [EvAddHeight (uint32 (nextHeight + blocksDuration l))] ++ tail /\
    (forall err, r = Some err -> EvLogError err ∈ h2) /\
    (forall blocks,
        watchLoop l nextHeight (block :: blocks) h =
        watchLoop l (uint32 (nextHeight + blocksDuration l)) blocks h2).
Proof.
  intros Hh Hraffle.
  pose proof (watch_after_raffle l nextHeight block h h1 r Hh Hraffle) as Hw.
  eexists _, _. split; [exact Hw|]. split.
  { rewrite <- !app_assoc. reflexivity. }
  split.
  - intros err ->. simpl. set_solver.
  - intros blocks. cbn [watchLoop]. unfold bind at 1. now rewrite Hw.
Qed.

(** A block of another height is dropped: nothing happens, the target stays. *)
Lemma watch_ignores_other_heights (l : Lottery) (nextHeight : Z) (block : BlockEpoch)
    (h : history) :
  Height block <> nextHeight -> watch l nextHeight block h = (Returns nextHeight, h).
Proof.
  intros Hne. unfold watch.
  destruct (Z.eqb_spec (Height block) nextHeight); done.
Qed.

(** C5 with a bet table that cannot be read: the raffle fails, the error is
    logged, and the target moves from 100 to 150.  With the store of the
    worked example the raffle succeeds and the target moves on as well. *)
Lemma watch_advances_target_example :
  (exists tail,
      (watch (example_lottery (example_db 100 example_bets 1000) 90 50) 100
             {| Hash := rev example_hash; Height := 100 |} []).2
      = (raffle (example_lottery (example_db 100 example_bets 1000) 90 50)
                {| Hash := example_hash; Height := 100 |} []).2
          ++ [] ++ [EvAddHeight 150] ++ tail) /\
  raffle (example_lottery (broken_db 100) 90 50)
         {| Hash := rev example_hash; Height := 100 |} [] =
    (Returns (Some (Wrap (ErrOther "database is locked") "listing bets")), []) /\
  watch (example_lottery (broken_db 100) 90 50) 100
        {| Hash := example_hash; Height := 100 |} [] =
    (Returns 150,
     [EvLogError (Wrap (ErrOther "database is locked") "listing bets");
      EvAddHeight 150;
      EvLogInfof "Next block height target: %d" 150]) /\
  exists h2 tail,
    watch (example_lottery (broken_db 100) 90 50) 100
          {| Hash := example_hash; Height := 100 |} [] = (Returns 150, h2) /\
    h2 = [] ++ [EvLogError (Wrap (ErrOther "database is locked") "listing bets")]
            ++ [EvAddHeight 150] ++ tail /\
    EvLogError (Wrap (ErrOther "database is locked") "listing bets") ∈ h2.
Proof.
  split.
  { destruct (watch_advances_target
                (example_lottery (example_db 100 example_bets 1000) 90 50) 100
                {| Hash := rev example_hash; Height := 100 |} []
                (raffle (example_lottery (example_db 100 example_bets 1000) 90 50)
                        {| Hash := example_hash; Height := 100 |} []).2
                None eq_refl)
      as (h2 & tail & Hw & Hh2 & _); [vm_compute; reflexivity|].
    exists tail. rewrite Hw. exact Hh2. }
  split; [reflexivity|]. split; [reflexivity|].
  destruct (watch_advances_target (example_lottery (broken_db 100) 90 50) 100
              {| Hash := example_hash; Height := 100 |} [] []
              (Some (Wrap (ErrOther "database is locked") "listing bets"))
              eq_refl eq_refl) as (h2 & tail & Hw & Hh2 & Hlog & _).
  exists h2, tail. split; [exact Hw|]. split; [exact Hh2|].
  apply Hlog. reflexivity.
Defined.

(** ** The raffle on an empty round *)

Lemma raffle_on_empty_round (l : Lottery) (block : BlockEpoch) (h : history) :
  Bets_List (db l) h 0 0 false = Ok [] ->
  raffle l block h = (Returns None, h).
Proof. intros Hempty. unfold raffle, fetch, bind, ask. now rewrite Hempty. Qed.

(** C6.  If the list of active bets is empty, [raffle] returns [nil] and does
    nothing to the outside world: no reset, no winners saved, nothing sent on
    [winnersCh], no notification, no log line.  The watcher then moves the
    target on as after any draw. *)
Theorem raffle_without_bets (l : Lottery) (block : BlockEpoch) (h : history) :
  Bets_List (db l) h 0 0 false = Ok [] ->
  raffle l block h = (Returns None, h) /\
  watch l (Height block) block h =
    (Returns (uint32 (Height block + blocksDuration l)),
     h ++ [EvAddHeight (uint32 (Height block + blocksDuration l))]
       ++ logged (Lotteries_AddHeight (db l) h
                    (uint32 (Height block + blocksDuration l)))
       ++ [EvLogInfof "Next block height target: %d"
             (uint32 (Height block + blocksDuration l))]).
Proof.
  intros Hempty. split; [now apply raffle_on_empty_round|].
  rewrite (watch_after_raffle l (Height block) block h h None eq_refl
             (raffle_on_empty_round l _ h Hempty)).
  cbn [logged]. now rewrite !app_nil_r.
Qed.

(** C6 on a store without bets: the draw at height 100 leaves the history
    with the new target 150 only. *)
Lemma raffle_without_bets_example :
  raffle (example_lottery (example_db 100 [] 0) 90 50)
         {| Hash := example_hash; Height := 100 |} [] = (Returns None, []) /\
  watch (example_lottery (example_db 100 [] 0) 90 50) 100
        {| Hash := example_hash; Height := 100 |} [] =
    (Returns 150,
     [EvAddHeight 150; EvLogInfof "Next block height target: %d" 150]).
Proof.
  apply (raffle_without_bets (example_lottery (example_db 100 [] 0) 90 50)
           {| Hash := example_hash; Height := 100 |} [] eq_refl).
Defined.

(** ** Notifications *)

Lemma notifyEntry_run (l : Lottery) (publicKey : string) (prizes : Z) (h : history) :
  notifyEntry l (publicKey, prizes) h =
    (Returns tt,
     h ++ delivery l (Notifications_GetChatID (db l) h publicKey) prizes).
Proof.
  unfold notifyEntry, bind, ask, emit, call, ret, delivery.
  destruct (Notifications_GetChatID (db l) h publicKey) as [chatID|err]; [done|].
  destruct (errors_Is_ErrNoRows err); cbn [negb]; [|done].
  now rewrite app_nil_r.
Qed.

Lemma notifyEntries_run (l : Lottery) (entries : list (string * Z)) :
  forall h : history,
  exists blocks : list (list event),
    notifyEntries l entries h = (Returns tt, h ++ concat blocks) /\
    Forall2 (fun entry block =>
               exists hb, block =
                 delivery l (Notifications_GetChatID (db l) hb entry.1) entry.2)
            entries blocks.
Proof.
  induction entries as [|[publicKey prizes] entries IH]; intros h.
  - exists []. simpl. split; [now rewrite app_nil_r | constructor].
  - cbn [notifyEntries]. unfold bind. rewrite notifyEntry_run.
    destruct (IH (h ++ delivery l (Notifications_GetChatID (db l) h publicKey) prizes))
      as (blocks & Hrun & Hblocks).
    exists (delivery l (Notifications_GetChatID (db l) h publicKey) prizes :: blocks).
    split.
    + rewrite Hrun. simpl. now rewrite <- app_assoc.
    + constructor; [|done]. now exists h.
Qed.

(** The first loop leaves, under each public key, the prizes of its winners
    added from the left. *)
Lemma foldl_aggregate_lookup (winners : list Winner.t) :
  forall (m : gmap string Z) (publicKey : string),
    foldl aggregate_step m winners !! publicKey =
    match m !! publicKey with
    | Some v =>
        Some (foldl (fun acc p => uint64 (acc + p)) v (prizes_of publicKey winners))
    | None =>
        match prizes_of publicKey winners with
        | [] => None
        | p :: ps => Some (foldl (fun acc p => uint64 (acc + p)) p ps)
        end
    end.
Proof.
  unfold prizes_of.
  induction winners as [|w winners IH]; intros m publicKey.
  - simpl. now destruct (m !! publicKey).
  - cbn [foldl]. rewrite IH. unfold aggregate_step.
    rewrite filter_cons.
    destruct (decide (Winner.PublicKey w = publicKey)) as [Heq|Hne].
    + rewrite Heq. destruct (m !! publicKey) as [v|] eqn:Hm.
      * now rewrite lookup_insert_eq.
      * now rewrite lookup_insert_eq.
    + destruct (m !! Winner.PublicKey w) as [v|]; now rewrite lookup_insert_ne.
Qed.

Lemma aggregate_lookup (winners : list Winner.t) (publicKey : string) :
  Forall (fun w => is_uint64 (Winner.Prizes w)) winners ->
  aggregate winners !! publicKey =
    match prizes_of publicKey winners with
    | [] => None
    | _ :: _ => Some (sum_uint64 (prizes_of publicKey winners))
    end.
Proof.
  intros Huint. unfold aggregate. rewrite foldl_aggregate_lookup, lookup_empty.
  destruct (prizes_of publicKey winners) as [|p ps] eqn:Hps; [done|].
  unfold sum_uint64. cbn [foldl]. rewrite (uint64_id (0 + p)); [done|].
  assert (p ∈ prizes_of publicKey winners) as Hin by (rewrite Hps; left).
  unfold prizes_of in Hin. apply list_elem_of_fmap in Hin as (w & -> & Hw).
  apply list_elem_of_filter in Hw as [_ Hw].
  rewrite Forall_forall in Huint. specialize (Huint w Hw). unfold is_uint64 in Huint. lia.
Qed.

Lemma prizes_of_nil (winners : list Winner.t) (publicKey : string) :
  prizes_of publicKey winners = [] <-> publicKey ∉ Winner.PublicKey <$> winners.
Proof.
  unfold prizes_of. split.
  - intros Hnil%fmap_nil_inv Hin. apply list_elem_of_fmap in Hin as (w & -> & Hw).
    assert (w ∈ filter (fun w0 => Winner.PublicKey w0 = Winner.PublicKey w) winners) as Hf
      by (apply list_elem_of_filter; done).
    rewrite Hnil in Hf. by apply not_elem_of_nil in Hf.
  - intros Hnotin.
    destruct (filter _ winners) as [|w ws] eqn:Hf; [done|].
    assert (w ∈ filter (fun w0 => Winner.PublicKey w0 = publicKey) winners) as Hw
      by (rewrite Hf; left).
    apply list_elem_of_filter in Hw as [Hpk Hw].
    exfalso. apply Hnotin. apply list_elem_of_fmap. exists w. done.
Qed.

(** Without overflow the [uint64] sum is the sum. *)
Lemma sum_uint64_exact (ps : list Z) :
  Forall is_uint64 ps -> foldr Z.add 0 ps < 2 ^ 64 ->
  sum_uint64 ps = foldr Z.add 0 ps.
Proof.
  unfold sum_uint64.
  assert (forall acc, 0 <= acc -> Forall is_uint64 ps ->
            acc + foldr Z.add 0 ps < 2 ^ 64 ->
            foldl (fun acc p => uint64 (acc + p)) acc ps = acc + foldr Z.add 0 ps) as Hgen.
  { induction ps as [|p ps IH]; intros acc Hacc Hps Hsum; simpl in *; [lia|].
    apply Forall_cons in Hps as [Hp Hps]. unfold is_uint64 in Hp.
    assert (0 <= foldr Z.add 0 ps) as Hnonneg.
    { clear -Hps. induction Hps as [|q qs Hq _ IHq]; simpl; [lia|].
      unfold is_uint64 in Hq. lia. }
    rewrite (uint64_id (acc + p)) by lia.
    rewrite IH; [lia | lia | done | lia]. }
  intros Hps Hsum. rewrite Hgen; [lia | lia | done | lia].
Qed.

Lemma delivery_at_most_one (l : Lottery) (r : result Z) (prizes : Z) :
  (length (delivery l r prizes) <= 1)%nat.
Proof.
  unfold delivery. destruct r as [chatID|err]; [simpl; lia|].
  destruct (errors_Is_ErrNoRows err); simpl; lia.
Qed.

Lemma notifications_at_most_entries (l : Lottery) (entries : list (string * Z))
    (blocks : list (list event)) :
  Forall2 (fun entry block =>
             exists hb, block =
               delivery l (Notifications_GetChatID (db l) hb entry.1) entry.2)
          entries blocks ->
  (length (filter (fun e => is_notification e = true) (concat blocks))
   <= length entries)%nat.
Proof.
  induction 1 as [|entry block entries blocks (hb & ->) _ IH]; [done|].
  simpl. rewrite filter_app, length_app.
  pose proof (length_filter (fun e => is_notification e = true)
                (delivery l (Notifications_GetChatID (db l) hb entry.1) entry.2)).
  pose proof (delivery_at_most_one l (Notifications_GetChatID (db l) hb entry.1) entry.2).
  lia.
Qed.

(** C8.  [notifyWinners] goes once through the distinct public keys of the
    winners.  The entry of a public key carries the sum of the prizes of all
    its winners (added in [uint64]; the plain sum when that fits), so a
    participant who won two tiers has one entry with the two prizes added.
    Each entry gives at most one event: a notification with the total when
    the store knows the chat, nothing at all when the store answers
    [sql.ErrNoRows], a log line for any other error.  There are never more
    notifications than distinct participants. *)
Theorem notifyWinners_one_message_per_participant
    (l : Lottery) (winners : list Winner.t) (h : history) :
  ranges_each_entry_once l ->
  Forall (fun w => is_uint64 (Winner.Prizes w)) winners ->
  exists (entries : list (string * Z)) (blocks : list (list event)),
    notifyWinners l winners h = (Returns tt, h ++ concat blocks) /\
    NoDup entries.*1 /\
    (forall publicKey,
        publicKey ∈ entries.*1 <-> publicKey ∈ Winner.PublicKey <$> winners) /\
    (forall publicKey total, (publicKey, total) ∈ entries ->
        total = sum_uint64 (prizes_of publicKey winners) /\
        (foldr Z.add 0 (prizes_of publicKey winners) < 2 ^ 64 ->
         total = foldr Z.add 0 (prizes_of publicKey winners))) /\
    (forall publicKey w1 w2,
        filter (fun w => Winner.PublicKey w = publicKey) winners = [w1; w2] ->
        (publicKey, uint64 (Winner.Prizes w1 + Winner.Prizes w2)) ∈ entries) /\
    Forall2 (fun entry block =>
               exists hb,
                 match Notifications_GetChatID (db l) hb entry.1 with
                 | Ok chatID => block = [EvNotify chatID (Congratulations l entry.2)]
                 | Err err =>
                     if errors_Is_ErrNoRows err then block = []
                     else block = [EvLogError (Wrap err "getting telegram chat ID")]
                 end)
            entries blocks /\
    (length (filter (fun e => is_notification e = true) (concat blocks))
     <= length (remove_dups (Winner.PublicKey <$> winners)))%nat.
Proof.
  intros Hrange Huint.
  set (m := aggregate winners).
  pose proof (Hrange h m) as Hperm.
  assert (forall publicKey total,
             (publicKey, total) ∈ map_range l h m <-> m !! publicKey = Some total) as Hentry.
  { intros publicKey total. rewrite Hperm. apply elem_of_map_to_list. }
  assert (NoDup (map_range l h m).*1) as Hnodup.
  { rewrite Hperm. apply NoDup_fst_map_to_list. }
  assert (forall publicKey,
             publicKey ∈ (map_range l h m).*1 <-> publicKey ∈ Winner.PublicKey <$> winners)
    as Hkeys.
  { intros publicKey. rewrite list_elem_of_fmap. split.
    - intros ([pk total] & -> & Hin). apply Hentry in Hin. simpl.
      subst m. rewrite aggregate_lookup in Hin by done.
      destruct (decide (pk ∈ Winner.PublicKey <$> winners)) as [|Hnotin]; [done|].
      apply prizes_of_nil in Hnotin. now rewrite Hnotin in Hin.
    - intros Hin.
      destruct (prizes_of publicKey winners) as [|p ps] eqn:Hps.
      { apply prizes_of_nil in Hps. done. }
      exists (publicKey, sum_uint64 (p :: ps)). split; [done|].
      apply Hentry. subst m. rewrite aggregate_lookup by done. now rewrite Hps. }
  destruct (notifyEntries_run l (map_range l h m) h) as (blocks & Hrun & Hblocks).
  exists (map_range l h m), blocks.
  split; [exact Hrun|]. split; [exact Hnodup|]. split; [exact Hkeys|].
  split; [|split; [|split]].
  - intros publicKey total Hin. apply Hentry in Hin.
    subst m. rewrite aggregate_lookup in Hin by done.
    destruct (prizes_of publicKey winners) as [|p ps] eqn:Hps; [done|].
    injection Hin as <-. split; [done|].
    intros Hsum. apply sum_uint64_exact; [|done].
    rewrite <- Hps. unfold prizes_of. apply Forall_fmap.
    apply Forall_forall. intros w Hw. apply list_elem_of_filter in Hw as [_ Hw].
    rewrite Forall_forall in Huint. now apply Huint.
  - intros publicKey w1 w2 Hfilter. apply Hentry.
    subst m. rewrite aggregate_lookup by done.
    unfold prizes_of. rewrite Hfilter. cbn [fmap list_fmap].
    unfold sum_uint64. cbn [foldl]. rewrite (uint64_id (0 + _)); [done|].
    assert (w1 ∈ filter (fun w => Winner.PublicKey w = publicKey) winners) as Hw1
      by (rewrite Hfilter; left).
    apply list_elem_of_filter in Hw1 as [_ Hw1].
    rewrite Forall_forall in Huint. specialize (Huint w1 Hw1).
    unfold is_uint64 in Huint. lia.
  - eapply Forall2_impl; [exact Hblocks|].
    intros [publicKey total] block (hb & ->). exists hb. unfold delivery. simpl.
    destruct (Notifications_GetChatID (db l) hb publicKey) as [chatID|err]; [done|].
    now destruct (errors_Is_ErrNoRows err).
  - etransitivity; [apply (notifications_at_most_entries l _ _ Hblocks)|].
    apply Nat.eq_le_incl.
    rewrite <- (length_fmap fst (map_range l h m)).
    apply Permutation_length, NoDup_Permutation;
      [exact Hnodup | apply NoDup_remove_dups |].
    intros publicKey. rewrite Hkeys. now rewrite elem_of_remove_dups.
Qed.

(** C8 on the winners of the worked example: "A" won seven tiers and gets one
    message with their sum, 497; the store has no chat for "B", who is passed
    over without a log line. *)
Lemma notifyWinners_one_message_per_participant_example :
  ranges_each_entry_once (example_lottery (example_db 100 example_bets 1000) 90 50) /\
  Forall (fun w => is_uint64 (Winner.Prizes w)) example_winners /\
  prizes_of "A" example_winners = [250; 125; 63; 31; 16; 8; 4] /\
  notifyWinners (example_lottery (example_db 100 example_bets 1000) 90 50)
                example_winners [] =
    (Returns tt, [EvNotify 7 "Congratulations, you won 497"]) /\
  exists (entries : list (string * Z)) (blocks : list (list event)),
    notifyWinners (example_lottery (example_db 100 example_bets 1000) 90 50)
                  example_winners [] = (Returns tt, [] ++ concat blocks) /\
    NoDup entries.*1.
Proof.
  assert (ranges_each_entry_once
            (example_lottery (example_db 100 example_bets 1000) 90 50)) as Hrange.
  { intros h m. reflexivity. }
  assert (Forall (fun w => is_uint64 (Winner.Prizes w)) example_winners) as Huint.
  { unfold example_winners, is_uint64. repeat constructor; simpl; lia. }
  split; [exact Hrange|]. split; [exact Huint|].
  split; [vm_compute; reflexivity|]. split; [vm_compute; reflexivity|].
  destruct (notifyWinners_one_message_per_participant
              (example_lottery (example_db 100 example_bets 1000) 90 50)
              example_winners [] Hrange Huint)
    as (entries & blocks & Hrun & Hnodup & _).
  exists entries, blocks. split; [exact Hrun | exact Hnodup].
Defined.

(** ** The expiry threshold *)

(** [notifyWinners] always returns, and only notifies and logs. *)
Lemma notifyWinners_events (l : Lottery) (winners : list Winner.t) (h : history) :
  exists evs,
    notifyWinners l winners h = (Returns tt, h ++ evs) /\
    forall e, e ∈ evs -> (exists chatID message, e = EvNotify chatID message)
                         \/ (exists err, e = EvLogError err).
Proof.
  unfold notifyWinners, bind, ask.
  destruct (notifyEntries_run l (map_range l h (aggregate winners)) h)
    as (blocks & Hrun & Hblocks).
  exists (concat blocks). split; [exact Hrun|].
  clear Hrun. induction Hblocks as [|entry block entries blocks (hb & ->) _ IH].
  - intros e He. by apply not_elem_of_nil in He.
  - intros e He. simpl in He. apply elem_of_app in He as [He|He]; [|now apply IH].
    unfold delivery in He.
    destruct (Notifications_GetChatID (db l) hb entry.1) as [chatID|err].
    + apply list_elem_of_singleton in He. left. eauto.
    + destruct (errors_Is_ErrNoRows err).
      * by apply not_elem_of_nil in He.
      * apply list_elem_of_singleton in He. right. eauto.
Qed.

(** Whatever the collaborators answer, the only height [raffle] hands to
    [ExpirePrizes] is [expiryThreshold]. *)
Lemma raffle_expiry_event (l : Lottery) (block : BlockEpoch) (h : history) (x : Z) :
  EvExpirePrizes x ∈ (raffle l block h).2 ->
  EvExpirePrizes x ∈ h \/ x = expiryThreshold l block.
Proof.
  unfold raffle, fetch, check, bind, ask, emit, call, lift, ret.
  destruct (Bets_List (db l) h 0 0 false) as [bets|err]; [|now left].
  destruct (len bets =? 0); [now left|].
  destruct (Bets_GetPrizePool (db l) h) as [prizePool|err]; [|now left].
  destruct (Bets_Reset (db l) h) as [err|].
  { cbn. rewrite elem_of_app, list_elem_of_singleton. intros [?|?]; [now left | done]. }
  destruct (getWinners (Hash block) prizePool bets) as [[winners [err|]]| |];
    try (cbn; rewrite elem_of_app, list_elem_of_singleton; intros [?|?]; [now left | done]).
  destruct (Winners_Add (db l) _ (Height block) winners) as [err|].
  { cbn. rewrite !elem_of_app, !list_elem_of_singleton.
    intros [[?|?]|?]; [now left | done | done]. }
  cbv beta iota.
  match goal with
  | |- context [notifyWinners l winners ?h0] =>
      destruct (notifyWinners_events l winners h0) as (evs & -> & Hevs)
  end.
  assert (EvExpirePrizes x ∉ evs) as Hnot.
  { intros Hin. destruct (Hevs _ Hin) as [(? & ? & ?)|(? & ?)]; done. }
  destruct (Winners_ExpirePrizes (db l) _ (expiryThreshold l block)) as [expired|err].
  - destruct (Notifications_Expire (db l) _) as [err|]; cbn;
      rewrite !elem_of_app, !list_elem_of_singleton;
      intros H; decompose [or] H;
      first [now left | contradiction | discriminate | right; congruence].
  - cbn. rewrite !elem_of_app, !list_elem_of_singleton.
    intros H; decompose [or] H;
      first [now left | contradiction | discriminate | right; congruence].
Qed.

(** C10.  The height handed to [ExpirePrizes] is
    [block.Height - blocksDuration * 3] in [uint32].  When the height of the
    draw is below three steps ([blocksDuration * 3] as the code computes it,
    which is [3 * D] whenever that fits [uint32]), the difference is negative,
    the subtraction wraps, and the threshold is [2^32 - blocksDuration * 3]
    above the height of the draw instead of three steps below it. *)
Theorem expiryThreshold_wraps (l : Lottery) (block : BlockEpoch) :
  is_uint32 (Height block) ->
  Height block < uint32 (blocksDuration l * 3) ->
  (forall h x, EvExpirePrizes x ∈ (raffle l block h).2 ->
               EvExpirePrizes x ∈ h \/ x = expiryThreshold l block) /\
  expiryThreshold l block = Height block - uint32 (blocksDuration l * 3) + 2 ^ 32 /\
  Height block < expiryThreshold l block /\
  (0 <= 3 * blocksDuration l < 2 ^ 32 ->
   Height block < 3 * blocksDuration l /\
   expiryThreshold l block = Height block - 3 * blocksDuration l + 2 ^ 32).
Proof.
  intros HH Hlt. unfold is_uint32 in HH.
  pose proof (uint32_range (blocksDuration l * 3)) as HD.
  assert (expiryThreshold l block
          = Height block - uint32 (blocksDuration l * 3) + 2 ^ 32) as Hthr.
  { unfold expiryThreshold. unfold uint32 at 1.
    symmetry. apply (Z.mod_unique _ _ (-1)); [left|]; lia. }
  split; [intros h x; apply raffle_expiry_event|].
  split; [exact Hthr|]. split; [lia|].
  intros Hfits. rewrite Hthr.
  rewrite (uint32_id (blocksDuration l * 3)) in * by lia. lia.
Qed.

(** C10 for a draw at height 100 with a step of 144 blocks: the raffle asks
    the store to expire the prizes below height 4294966964. *)
Lemma expiryThreshold_wraps_example :
  is_uint32 100 /\
  100 < uint32 (144 * 3) /\
  expiryThreshold (example_lottery (example_db 100 example_bets 1000) 90 144)
                  {| Hash := example_hash; Height := 100 |} = 4294966964 /\
  100 < expiryThreshold (example_lottery (example_db 100 example_bets 1000) 90 144)
                        {| Hash := example_hash; Height := 100 |} /\
  EvExpirePrizes 4294966964
    ∈ (raffle (example_lottery (example_db 100 example_bets 1000) 90 144)
              {| Hash := example_hash; Height := 100 |} []).2.
Proof.
  assert (is_uint32 100) as H100 by (unfold is_uint32; lia).
  assert (100 < uint32 (144 * 3)) as Hlt by (vm_compute; reflexivity).
  split; [exact H100|]. split; [exact Hlt|].
  destruct (expiryThreshold_wraps
              (example_lottery (example_db 100 example_bets 1000) 90 144)
              {| Hash := example_hash; Height := 100 |} H100 Hlt)
    as (_ & Hthr & Hgt & _).
  split; [rewrite Hthr; vm_compute; reflexivity|]. split; [exact Hgt|].
  vm_compute. do 4 right. left.
Defined.

(** * Further properties of the package *)

(** ** [getPublicKey] on arbitrary slices *)

Lemma getPublicKey_loop_at_least (bets : list Bet.t) (t : Z) (pk : string) :
  len bets <= 2 ^ 62 ->
  forall (fuel : nat) (left right : Z),
    0 <= left -> right < len bets -> left <= right + 1 ->
    (right = len bets - 1 \/
     exists b, bets !! Z.to_nat (right + 1) = Some b /\ t < Bet.Index b) ->
    getPublicKey_loop fuel bets t left right = Returns pk ->
    exists k b, bets !! k = Some b /\ Bet.PublicKey b = pk /\ t <= Bet.Index b.
Proof.
  intros Hlen. unfold len in *.
  induction fuel as [|fuel IH]; intros left right Hl Hr Hlr Hright Hrun; [done|].
  simpl in Hrun. destruct (Z.leb_spec left right) as [Hle|Hgt].
  - rewrite (int_id (left + right)) in Hrun by lia.
    set (mid := Z.quot (left + right) 2) in *.
    assert (left <= mid <= right) as Hmid by (apply midpoint_between; lia).
    destruct (lookup_lt_is_Some_2 bets (Z.to_nat mid)) as [bm Hbm]; [lia|].
    rewrite (index_Returns bets mid bm ltac:(lia) Hbm) in Hrun. simpl in Hrun.
    destruct (Z.eqb_spec (Bet.Index bm) t) as [Heq|Hne].
    + injection Hrun as <-. exists (Z.to_nat mid), bm. split; [done|]. split; [done | lia].
    + destruct (Z.ltb_spec (Bet.Index bm) t) as [Hlt|Hge].
      * rewrite (int_id (mid + 1)) in Hrun by lia.
        apply (IH (mid + 1) right); try lia; done.
      * rewrite (int_id (mid - 1)) in Hrun by lia.
        apply (IH left (mid - 1)); try lia; [|done].
        right. exists bm. replace (mid - 1 + 1) with mid by lia. split; [done | lia].
  - destruct Hright as [Hlast|(b & Hb & Hbt)].
    + rewrite index_Panics in Hrun by (unfold len; lia). done.
    + replace (right + 1) with left in Hb by lia.
      rewrite (index_Returns bets left b Hl Hb) in Hrun. simpl in Hrun.
      injection Hrun as <-. exists (Z.to_nat left), b. split; [done|]. split; [done | lia].
Qed.

(** X1.  On any slice, sorted or not, a key [getPublicKey] returns is the key
    of a bet of the slice whose [Index] is at least the ticket: the search
    never picks a bet below the ticket. *)
Theorem getPublicKey_never_below_ticket (bets : list Bet.t) (ticket : Z) (pk : string) :
  len bets <= 2 ^ 62 ->
  getPublicKey bets ticket = Returns pk ->
  exists (k : nat) (b : Bet.t),
    bets !! k = Some b /\ Bet.PublicKey b = pk /\ ticket <= Bet.Index b.
Proof.
  intros Hlen Hrun. unfold getPublicKey in Hrun.
  destruct bets as [|b0 bets0] eqn:Hbets; [vm_compute in Hrun; done|].
  rewrite <- Hbets in *.
  assert (0 < len bets) as Hpos by (rewrite Hbets; unfold len; simpl; lia).
  rewrite int_id in Hrun by (unfold len in *; lia).
  apply (getPublicKey_loop_at_least bets ticket pk Hlen
           (S (length bets)) 0 (len bets - 1));
    [lia | lia | lia | now left | exact Hrun].
Qed.

(** X1 on an unsorted slice: ticket 60 goes to "B", whose bet is at 70. *)
Lemma getPublicKey_never_below_ticket_example :
  getPublicKey [Bet.mk "C" 100; Bet.mk "A" 10; Bet.mk "B" 70] 60 = Returns "B" /\
  exists (k : nat) (b : Bet.t),
    [Bet.mk "C" 100; Bet.mk "A" 10; Bet.mk "B" 70] !! k = Some b /\
    Bet.PublicKey b = "B" /\ 60 <= Bet.Index b.
Proof.
  split; [reflexivity|].
  apply (getPublicKey_never_below_ticket
           [Bet.mk "C" 100; Bet.mk "A" 10; Bet.mk "B" 70] 60 "B");
    [vm_compute; discriminate | reflexivity].
Defined.

Lemma getPublicKey_loop_above_all (bets : list Bet.t) (t : Z) :
  len bets <= 2 ^ 62 ->
  (forall b, b ∈ bets -> Bet.Index b < t) ->
  forall (fuel : nat) (left : Z),
    0 <= left <= len bets ->
    len bets - left < Z.of_nat fuel ->
    getPublicKey_loop fuel bets t left (len bets - 1) = Panics.
Proof.
  intros Hlen Hall. unfold len in *.
  induction fuel as [|fuel IH]; intros left Hl Hfuel; [lia|].
  simpl. destruct (Z.leb_spec left (Z.of_nat (length bets) - 1)) as [Hle|Hgt].
  - rewrite (int_id (left + _)) by lia.
    set (mid := Z.quot (left + (Z.of_nat (length bets) - 1)) 2).
    assert (left <= mid <= Z.of_nat (length bets) - 1) as Hmid
      by (apply midpoint_between; lia).
    destruct (lookup_lt_is_Some_2 bets (Z.to_nat mid)) as [bm Hbm]; [lia|].
    rewrite (index_Returns bets mid bm ltac:(lia) Hbm). simpl.
    pose proof (Hall bm (list_elem_of_lookup_2 _ _ _ Hbm)) as Hbelow.
    destruct (Z.eqb_spec (Bet.Index bm) t) as [Heq|_]; [lia|].
    destruct (Z.ltb_spec (Bet.Index bm) t) as [_|Hge]; [|lia].
    rewrite (int_id (mid + 1)) by lia. apply IH; lia.
  - rewrite index_Panics; [done|]. unfold len. lia.
Qed.

(** X2.  When every bet lies below the ticket (the ticket passes the last
    range; also when there is no bet at all), [getPublicKey] runs off the end
    of the slice and panics. *)
Theorem getPublicKey_panics_above_all (bets : list Bet.t) (ticket : Z) :
  len bets <= 2 ^ 62 ->
  (forall b, b ∈ bets -> Bet.Index b < ticket) ->
  getPublicKey bets ticket = Panics.
Proof.
  intros Hlen Hall. unfold getPublicKey.
  destruct bets as [|b0 bets0] eqn:Hbets; [reflexivity|].
  rewrite <- Hbets in *.
  assert (0 < len bets) as Hpos by (rewrite Hbets; unfold len; simpl; lia).
  rewrite int_id by (unfold len in *; lia).
  apply getPublicKey_loop_above_all; unfold len in *; try done; lia.
Qed.

(** X2 on the bets of the worked example: ticket 1001 is past the pool. *)
Lemma getPublicKey_panics_above_all_example :
  len example_bets <= 2 ^ 62 /\
  (forall b, b ∈ example_bets -> Bet.Index b < 1001) /\
  getPublicKey example_bets 1001 = Panics /\
  getPublicKey [] 1 = Panics.
Proof.
  assert (forall b, b ∈ example_bets -> Bet.Index b < 1001) as Hall.
  { intros b Hb. unfold example_bets in Hb.
    repeat (apply elem_of_cons in Hb as [->|Hb]; [simpl; lia|]).
    by apply not_elem_of_nil in Hb. }
  split; [vm_compute; discriminate|]. split; [exact Hall|]. split.
  - apply (getPublicKey_panics_above_all example_bets 1001);
      [vm_compute; discriminate | exact Hall].
  - reflexivity.
Defined.

Lemma ascending_from_le (lo : Z) (bets : list Bet.t) :
  ascending_from lo bets = true ->
  forall i j bi bj, bets !! i = Some bi -> bets !! j = Some bj -> (i < j)%nat ->
    Bet.Index bi <= Bet.Index bj.
Proof.
  revert lo. induction bets as [|b0 bets IH]; intros lo Hasc i j bi bj Hi Hj Hij; [done|].
  simpl in Hasc. apply andb_true_iff in Hasc as [_ Hasc].
  destruct j as [|j]; [lia|]. simpl in Hj.
  destruct i as [|i]; simpl in Hi.
  - injection Hi as <-. clear IH Hij. revert j bj Hj Hasc.
    generalize (Bet.Index b0) as lo0.
    induction bets as [|b1 bets IHb]; intros lo0 j bj Hj Hasc; [done|].
    simpl in Hasc. apply andb_true_iff in Hasc as [Hle Hasc]. apply Z.leb_le in Hle.
    destruct j as [|j]; simpl in Hj.
    + injection Hj as <-. done.
    + specialize (IHb _ _ _ Hj Hasc). lia.
  - eapply IH; eauto. lia.
Qed.

Lemma getPublicKey_loop_least (bets : list Bet.t) (t : Z) :
  (forall i j bi bj, bets !! i = Some bi -> bets !! j = Some bj ->
      (i < j)%nat -> Bet.Index bi <= Bet.Index bj) ->
  len bets <= 2 ^ 62 ->
  (exists b, last bets = Some b /\ t <= Bet.Index b) ->
  forall (fuel : nat) (left right : Z),
    0 <= left -> right < len bets -> left <= right + 1 ->
    right - left + 1 < Z.of_nat fuel ->
    (forall j b, bets !! j = Some b -> Z.of_nat j < left -> Bet.Index b < t) ->
    (forall j b, bets !! j = Some b -> right < Z.of_nat j -> t < Bet.Index b) ->
    exists k b,
      bets !! k = Some b /\ t <= Bet.Index b /\
      (forall b', b' ∈ bets -> t <= Bet.Index b' -> Bet.Index b <= Bet.Index b') /\
      getPublicKey_loop fuel bets t left right = Returns (Bet.PublicKey b).
Proof.
  intros Hasc Hlen (bl & Hlast & Hbl). unfold len in *.
  induction fuel as [|fuel IH]; intros left right Hl Hr Hlr Hfuel Hlo Hhi; [lia|].
  simpl. destruct (Z.leb_spec left right) as [Hle|Hgt].
  - rewrite (int_id (left + right)) by lia.
    set (mid := Z.quot (left + right) 2).
    assert (left <= mid <= right) as Hmid by (apply midpoint_between; lia).
    destruct (lookup_lt_is_Some_2 bets (Z.to_nat mid)) as [bm Hbm]; [lia|].
    rewrite (index_Returns bets mid bm ltac:(lia) Hbm). simpl.
    destruct (Z.eqb_spec (Bet.Index bm) t) as [Heq|Hne].
    + exists (Z.to_nat mid), bm.
      split; [done|]. split; [lia|]. split; [|done]. intros b' _ Hb'. lia.
    + destruct (Z.ltb_spec (Bet.Index bm) t) as [Hlt|Hge].
      * rewrite (int_id (mid + 1)) by lia.
        apply IH; try lia; [|done].
        intros j b Hj Hjm.
        destruct (decide (j = Z.to_nat mid)) as [->|Hjne].
        -- rewrite Hj in Hbm. injection Hbm as ->. done.
        -- assert (j < Z.to_nat mid)%nat as Hlt' by lia.
           specialize (Hasc _ _ _ _ Hj Hbm Hlt'). lia.
      * rewrite (int_id (mid - 1)) by lia.
        apply IH; try lia; [done|].
        intros j b Hj Hjm.
        destruct (decide (j = Z.to_nat mid)) as [->|Hjne].
        -- rewrite Hj in Hbm. injection Hbm as ->. lia.
        -- assert (Z.to_nat mid < j)%nat as Hlt' by lia.
           specialize (Hasc _ _ _ _ Hbm Hj Hlt'). lia.
  - assert (Z.to_nat left < length bets)%nat as Hin.
    { rewrite last_lookup in Hlast.
      destruct (decide (Z.to_nat left < length bets)%nat) as [|Hout]; [done|].
      assert (Z.of_nat (pred (length bets)) < left) as Hp.
      { destruct bets; [done|]. simpl in *. lia. }
      specialize (Hlo _ _ Hlast Hp). lia. }
    destruct (lookup_lt_is_Some_2 bets (Z.to_nat left) Hin) as [b Hb].
    rewrite (index_Returns _ _ _ Hl Hb). simpl.
    exists (Z.to_nat left), b.
    split; [done|]. split; [|split; [|done]].
    + assert (right < Z.of_nat (Z.to_nat left)) as Hrl by lia.
      specialize (Hhi _ _ Hb Hrl). lia.
    + intros b' Hb' Ht. apply list_elem_of_lookup in Hb' as [j Hj].
      destruct (Nat.lt_trichotomy j (Z.to_nat left)) as [Hlt|[->|Hgt']].
      * specialize (Hlo _ _ Hj ltac:(lia)). lia.
      * rewrite Hj in Hb. injection Hb as ->. lia.
      * apply (Hasc _ _ _ _ Hb Hj Hgt').
Qed.

(** X3.  On a slice sorted by [Index] in which bets may tie, and for a ticket
    the last bet reaches, [getPublicKey] returns the key of a bet with the
    least [Index] that is at least the ticket.  Among bets that tie on that
    [Index] it need not be the first one. *)
Theorem getPublicKey_least_index (bets : list Bet.t) (ticket : Z) :
  ascending_from 0 bets = true ->
  (exists b, last bets = Some b /\ ticket <= Bet.Index b) ->
  len bets <= 2 ^ 62 ->
  exists (k : nat) (b : Bet.t),
    bets !! k = Some b /\
    getPublicKey bets ticket = Returns (Bet.PublicKey b) /\
    ticket <= Bet.Index b /\
    (forall b', b' ∈ bets -> ticket <= Bet.Index b' -> Bet.Index b <= Bet.Index b').
Proof.
  intros Hasc Hlast Hlen.
  assert (0 < len bets) as Hpos.
  { destruct Hlast as (b & Hl & _). destruct bets; [done|]. unfold len. simpl. lia. }
  destruct (getPublicKey_loop_least bets ticket (ascending_from_le 0 bets Hasc) Hlen Hlast
              (S (length bets)) 0 (len bets - 1))
    as (k & b & Hk & Hb & Hleast & Hrun);
    try (unfold len in *; lia);
    try (intros j b0 Hj Hcmp; apply lookup_lt_Some in Hj; unfold len in *; lia).
  exists k, b. split; [done|]. split; [|done].
  unfold getPublicKey. rewrite int_id by (unfold len in *; lia). exact Hrun.
Qed.

(** X3 on bets that tie: ticket 50 goes to "B", the second of the two bets
    at 50, where the scan from the front finds "A". *)
Lemma getPublicKey_least_index_example :
  ascending_from 0 tied_bets = true /\
  getPublicKey tied_bets 50 = Returns "B" /\
  first_bet_at_least tied_bets 50 = Some (Bet.mk "A" 50) /\
  exists (k : nat) (b : Bet.t),
    tied_bets !! k = Some b /\
    getPublicKey tied_bets 50 = Returns (Bet.PublicKey b) /\
    50 <= Bet.Index b /\
    (forall b', b' ∈ tied_bets -> 50 <= Bet.Index b' -> Bet.Index b <= Bet.Index b').
Proof.
  split; [reflexivity|]. split; [reflexivity|]. split; [reflexivity|].
  apply (getPublicKey_least_index tied_bets 50); [reflexivity | | vm_compute; discriminate].
  exists (Bet.mk "C" 100). split; [reflexivity | simpl; lia].
Defined.

(** ** [getWinningTicket] on any window *)

(** X4.  For a window inside the hash and a pool between 1 and [2^64 - 1],
    [getWinningTicket] returns a ticket between 1 and the pool: the byte at
    [i] to the power of the byte at [i - 1], reduced modulo the pool when the
    pool is at most [2^63] and modulo [2^64 - pool] above, plus one. *)
Theorem getWinningTicket_in_window (hash : list Byte.byte) (i P : Z) :
  1 <= i < len hash ->
  len hash <= 2 ^ 62 ->
  1 <= P < 2 ^ 64 ->
  exists (b1 b2 : Byte.byte) (ticket : Z),
    hash !! Z.to_nat i = Some b1 /\
    hash !! Z.to_nat (i - 1) = Some b2 /\
    getWinningTicket hash i P = Returns ticket /\
    1 <= ticket <= P /\
    ticket = (Z.of_N (Byte.to_N b1) ^ Z.of_N (Byte.to_N b2))
               mod (if P <=? 2 ^ 63 then P else 2 ^ 64 - P) + 1.
Proof.
  intros Hi Hlen HP. unfold len in *.
  destruct (lookup_lt_is_Some_2 hash (Z.to_nat i)) as [b1 Hb1]; [lia|].
  destruct (lookup_lt_is_Some_2 hash (Z.to_nat (i - 1))) as [b2 Hb2]; [lia|].
  pose proof (index_Returns hash i b1 ltac:(lia) Hb1) as Hi1.
  pose proof (index_Returns hash (i - 1) b2 ltac:(lia) Hb2) as Hi2.
  rewrite <- (int_id (i - 1)) in Hi2 at 1 by lia.
  destruct (getWinningTicket_value b1 b2 P HP) as [Hrun Hrange].
  destruct (abs_int64_pool P HP) as (Habs & _).
  exists b1, b2. eexists. split; [done|]. split; [done|].
  rewrite (getWinningTicket_window _ _ _ _ _ Hi1 Hi2). split; [exact Hrun|].
  split; [exact Hrange|]. now rewrite Habs.
Qed.

(** X4 on the last window of the hash of the worked example, for the pool
    1000 and for a pool above [int64]. *)
Lemma getWinningTicket_in_window_example :
  1 <= 31 < len example_hash /\
  getWinningTicket example_hash 31 1000 = Returns 126 /\
  getWinningTicket example_hash 31 (2 ^ 64 - 100) = Returns 26 /\
  exists (b1 b2 : Byte.byte) (ticket : Z),
    example_hash !! Z.to_nat 31 = Some b1 /\
    example_hash !! Z.to_nat (31 - 1) = Some b2 /\
    getWinningTicket example_hash 31 (2 ^ 64 - 100) = Returns ticket /\
    1 <= ticket <= 2 ^ 64 - 100 /\
    ticket = (Z.of_N (Byte.to_N b1) ^ Z.of_N (Byte.to_N b2))
               mod (if 2 ^ 64 - 100 <=? 2 ^ 63 then 2 ^ 64 - 100
                    else 2 ^ 64 - (2 ^ 64 - 100)) + 1.
Proof.
  assert (len example_hash = 32) as Hlen by reflexivity.
  split; [rewrite Hlen; lia|].
  split; [vm_compute; reflexivity|]. split; [vm_compute; reflexivity|].
  apply (getWinningTicket_in_window example_hash 31 (2 ^ 64 - 100));
    rewrite ?Hlen; lia.
Defined.

(** X5.  A window that does not lie inside the hash ([i < 1] or
    [i >= len(hash)]) makes [getWinningTicket] panic, whatever the pool. *)
Theorem getWinningTicket_panics_outside (hash : list Byte.byte) (i P : Z) :
  - 2 ^ 62 <= i <= 2 ^ 62 ->
  i < 1 \/ len hash <= i ->
  getWinningTicket hash i P = Panics.
Proof.
  intros Hi Hout. unfold getWinningTicket.
  destruct (Z.ltb_spec i 0) as [Hneg|Hnonneg].
  - rewrite index_Panics by (left; lia). done.
  - destruct (Z.ltb_spec i (len hash)) as [Hin|Hge].
    + assert (i = 0) as -> by lia.
      destruct (lookup_lt_is_Some_2 hash 0%nat) as [b1 Hb1]; [unfold len in Hin; lia|].
      change 0 with (Z.of_nat 0) at 1.
      rewrite (index_of_nat hash 0 b1 Hb1). cbn [go_bind].
      rewrite index_Panics; [done|]. left. vm_compute. done.
    + rewrite index_Panics by (right; lia). done.
Qed.

(** X5 on one byte of hash: neither index 0 nor index 1 has a full window. *)
Lemma getWinningTicket_panics_outside_example :
  getWinningTicket [Byte.x07] 0 1000 = Panics /\
  getWinningTicket [Byte.x07] 1 1000 = Panics.
Proof.
  split.
  - apply (getWinningTicket_panics_outside [Byte.x07] 0 1000); [lia | left; lia].
  - apply (getWinningTicket_panics_outside [Byte.x07] 1 1000);
      [lia | right; vm_compute; discriminate].
Defined.

(** ** [getWinners] on any hash and any bets *)

Lemma getWinners_loop_length (ps : list float) (hash : list Byte.byte) (P : Z)
    (bets : list Bet.t) :
  forall (acc ws : list Winner.t) (i : Z),
    getWinners_loop ps hash P bets acc i = Returns ws ->
    length ws = (length acc + length ps)%nat.
Proof.
  induction ps as [|prize ps IH]; intros acc ws i Hrun.
  - simpl in Hrun. injection Hrun as <-. simpl. lia.
  - cbn [getWinners_loop] in Hrun.
    destruct (getWinningTicket hash i P) as [t| |]; cbn [go_bind] in Hrun; try done.
    destruct (getPublicKey bets t) as [pk| |]; cbn [go_bind] in Hrun; try done.
    apply IH in Hrun. rewrite length_app in Hrun. simpl in *. lia.
Qed.

(** X6.  [getWinners] never returns an error: when it returns, the error is
    [nil], and the winners are none for an empty bet list and exactly 8 for
    any other, whatever the hash and the pool. *)
Theorem getWinners_returns_no_error (hash : list Byte.byte) (P : Z) (bets : list Bet.t)
    (winners : list Winner.t) (err : option error) :
  getWinners hash P bets = Returns (winners, err) ->
  err = None /\
  length winners = match bets with [] => 0%nat | _ :: _ => 8%nat end.
Proof.
  unfold getWinners. destruct bets as [|b bets].
  - cbn. intros [= <- <-]. done.
  - destruct (Z.leb_spec (len (b :: bets)) 0) as [Hle|_].
    { unfold len in Hle. simpl in Hle. lia. }
    destruct (getWinners_loop prizes hash P (b :: bets) [] _) as [ws| |] eqn:Hloop;
      cbn [go_bind]; try done.
    intros [= <- <-]. split; [done|].
    now apply getWinners_loop_length in Hloop.
Qed.

(** X6 on the draw of the worked example. *)
Lemma getWinners_returns_no_error_example :
  getWinners example_hash 1000 example_bets = Returns (example_winners, None) /\
  length example_winners = 8%nat.
Proof.
  assert (getWinners example_hash 1000 example_bets = Returns (example_winners, None))
    as Hrun by (vm_compute; reflexivity).
  split; [exact Hrun|].
  apply (getWinners_returns_no_error example_hash 1000 example_bets
           example_winners None Hrun).
Defined.

Lemma index_finishes {A} (s : list A) (i : Z) : index s i <> Unfinished.
Proof. unfold index. destruct (i <? 0); [done|]. now destruct (s !! Z.to_nat i). Qed.

Lemma getWinningTicket_finishes (hash : list Byte.byte) (i P : Z) :
  getWinningTicket hash i P <> Unfinished.
Proof.
  unfold getWinningTicket.
  pose proof (index_finishes hash i) as H1.
  destruct (index hash i) as [b1| |]; cbn [go_bind]; try done.
  pose proof (index_finishes hash (int (i - 1))) as H2.
  destruct (index hash (int (i - 1))) as [b2| |]; cbn [go_bind]; done.
Qed.

Lemma getWinningTicket_below_window (hash : list Byte.byte) (i P : Z) :
  - 2 ^ 62 <= i < 1 -> getWinningTicket hash i P = Panics.
Proof.
  intros Hi. unfold getWinningTicket.
  pose proof (index_finishes hash i) as H1.
  destruct (index hash i) as [b1| |]; cbn [go_bind]; try done.
  rewrite index_Panics; [done|]. left. rewrite int_id by lia. lia.
Qed.

Lemma getWinners_loop_short_hash (ps : list float) (hash : list Byte.byte) (P : Z)
    (bets : list Bet.t) :
  len bets <= 2 ^ 62 ->
  forall (acc : list Winner.t) (i : Z),
    -1 <= i < 2 * len ps - 1 -> i < 2 ^ 62 ->
    getWinners_loop ps hash P bets acc i = Panics.
Proof.
  intros Hbets. unfold len in *.
  induction ps as [|prize ps IH]; intros acc i Hi Hmax.
  - simpl in Hi. lia.
  - simpl length in Hi. cbn [getWinners_loop].
    destruct (Z.ltb_spec i 1) as [Hlow|Hhigh].
    + rewrite getWinningTicket_below_window by lia. done.
    + pose proof (getWinningTicket_finishes hash i P) as Hfin.
      destruct (getWinningTicket hash i P) as [t| |]; cbn [go_bind]; try done.
      pose proof (getPublicKey_finishes bets t Hbets) as Hfin'.
      destruct (getPublicKey bets t) as [pk| |]; cbn [go_bind]; try done.
      rewrite (int_id (i - 2)) by lia. apply IH; lia.
Qed.

(** X7.  With bets but fewer than 16 bytes of hash, [getWinners] panics: one
    of the 8 windows falls off the front of the hash. *)
Theorem getWinners_panics_on_short_hash (hash : list Byte.byte) (P : Z)
    (bets : list Bet.t) :
  bets <> [] ->
  len bets <= 2 ^ 62 ->
  (length hash < 16)%nat ->
  getWinners hash P bets = Panics.
Proof.
  intros Hne Hbets Hshort. unfold getWinners.
  destruct (Z.leb_spec (len bets) 0) as [Hle|_].
  { destruct bets; [done|]. unfold len in Hle. simpl in Hle. lia. }
  unfold len at 1. rewrite int_id by lia.
  rewrite getWinners_loop_short_hash; [done | done | | lia].
  unfold len. simpl. lia.
Qed.

(** X7 on 15 bytes of hash and the bets of the worked example. *)
Lemma getWinners_panics_on_short_hash_example :
  example_bets <> [] /\
  (length (repeat Byte.xff 15) < 16)%nat /\
  getWinners (repeat Byte.xff 15) 1000 example_bets = Panics.
Proof.
  split; [discriminate|]. split; [simpl; lia|].
  apply (getWinners_panics_on_short_hash (repeat Byte.xff 15) 1000 example_bets);
    [discriminate | vm_compute; discriminate | simpl; lia].
Defined.

Lemma getWinners_loop_shift (ps : list float) (hash hash' : list Byte.byte)
    (P : Z) (bets : list Bet.t) :
  forall (acc : list Winner.t) (i i' : Z),
    - 2 ^ 62 <= i - 2 * len ps -> i < 2 ^ 62 ->
    - 2 ^ 62 <= i' - 2 * len ps -> i' < 2 ^ 62 ->
    (forall d, 0 <= d < 2 * len ps -> index hash (i - d) = index hash' (i' - d)) ->
    getWinners_loop ps hash P bets acc i = getWinners_loop ps hash' P bets acc i'.
Proof.
  unfold len. induction ps as [|prize ps IH]; intros acc i i' Hlo Hhi Hlo' Hhi' Hsame; [done|].
  simpl length in *. cbn [getWinners_loop].
  assert (getWinningTicket hash i P = getWinningTicket hash' i' P) as ->.
  { unfold getWinningTicket. rewrite (int_id (i - 1)), (int_id (i' - 1)) by lia.
    pose proof (Hsame 0 ltac:(lia)) as H0. rewrite !Z.sub_0_r in H0.
    rewrite H0, (Hsame 1) by lia. done. }
  destruct (getWinningTicket hash' i' P) as [t| |]; cbn [go_bind]; try done.
  destruct (getPublicKey bets t) as [pk| |]; cbn [go_bind]; try done.
  rewrite (int_id (i - 2)), (int_id (i' - 2)) by lia.
  apply IH; try lia. intros d Hd.
  replace (i - 2 - d) with (i - (2 + d)) by lia.
  replace (i' - 2 - d) with (i' - (2 + d)) by lia.
  apply Hsame. lia.
Qed.

(** X8.  Of a hash of 16 bytes or more, [getWinners] reads the last 16 bytes
    only: it gives the same outcome, winners or panic, on that tail alone,
    whatever the bets and the pool. *)
Theorem getWinners_reads_last_16_bytes (hash : list Byte.byte) (P : Z)
    (bets : list Bet.t) :
  (16 <= length hash)%nat ->
  len hash <= 2 ^ 62 ->
  getWinners hash P bets = getWinners (drop (length hash - 16) hash) P bets.
Proof.
  intros H16 Hmax. unfold getWinners.
  destruct (len bets <=? 0); [done|]. f_equal.
  assert (length (drop (length hash - 16) hash) = 16%nat) as Hdrop
    by (rewrite length_drop; lia).
  unfold len in *. rewrite Hdrop.
  rewrite (int_id (Z.of_nat (length hash) - 1)), (int_id (Z.of_nat 16 - 1)) by lia.
  apply getWinners_loop_shift; unfold len; simpl length; try lia.
  intros d Hd. unfold index.
  destruct (Z.ltb_spec (Z.of_nat (length hash) - 1 - d) 0); [lia|].
  destruct (Z.ltb_spec (Z.of_nat 16 - 1 - d) 0); [lia|].
  rewrite lookup_drop.
  replace (length hash - 16 + Z.to_nat (Z.of_nat 16 - 1 - d))%nat
    with (Z.to_nat (Z.of_nat (length hash) - 1 - d)) by lia.
  done.
Qed.

(** X8 on a 40-byte hash that ends like the hash of the worked example. *)
Lemma getWinners_reads_last_16_bytes_example :
  (16 <= length (repeat Byte.xff 24 ++ drop 16 example_hash))%nat /\
  getWinners (repeat Byte.xff 24 ++ drop 16 example_hash) 1000 example_bets =
    Returns (example_winners, None).
Proof.
  split; [simpl; lia|].
  rewrite (getWinners_reads_last_16_bytes
             (repeat Byte.xff 24 ++ drop 16 example_hash) 1000 example_bets);
    [vm_compute; reflexivity | simpl; lia | vm_compute; discriminate].
Defined.

Lemma getPublicKey_partition_owner (bets : list Bet.t) (P t : Z) :
  partitions bets P = true -> 1 <= t <= P -> len bets <= 2 ^ 62 ->
  exists k b,
    bets !! k = Some b /\ owns bets k t /\
    getPublicKey bets t = Returns (Bet.PublicKey b).
Proof.
  intros Hpart Ht Hlen. unfold partitions in Hpart.
  assert (forall i j bi bj, bets !! i = Some bi -> bets !! j = Some bj ->
            (i < j)%nat -> Bet.Index bi < Bet.Index bj) as Hasc.
  { intros i j bi bj. apply (ranges_from_ascending _ _ _ _ _ _ _ Hpart). }
  destruct (ranges_from_last 0 bets P Hpart ltac:(lia)) as (bl & Hlast & Hbl).
  assert (0 < len bets) as Hpos.
  { destruct bets; [done|]. unfold len. simpl. lia. }
  destruct (getPublicKey_loop_spec bets t Hasc Hlen
              ltac:(exists bl; split; [done | lia])
              (S (length bets)) 0 (len bets - 1))
    as (k & b & Hk & Hb & Hbelow & Hrun);
    try (unfold len in *; lia);
    try (intros j b0 Hj Hcmp; apply lookup_lt_Some in Hj; unfold len in *; lia).
  exists k, b. split; [done|]. split.
  - exists b. split; [done|]. split; [|done].
    destruct k as [|k]; simpl; [lia|].
    destruct (lookup_lt_is_Some_2 bets k) as [bk Hbk].
    { apply lookup_lt_Some in Hk. lia. }
    rewrite Hbk. simpl. apply (Hbelow k bk Hbk). lia.
  - unfold getPublicKey. rewrite int_id by (unfold len in *; lia). exact Hrun.
Qed.

(** X9.  In a draw on bets that cut [[1, P]] into ranges, every winner
    [getWinners] returns holds the ticket drawn for them: the ticket lies in
    [[1, P]] and in the range of a bet with the winner's public key. *)
Theorem getWinners_winners_own_tickets (hash : list Byte.byte) (P : Z)
    (bets : list Bet.t) (winners : list Winner.t) (err : option error) :
  (16 <= length hash)%nat ->
  len hash <= 2 ^ 62 ->
  partitions bets P = true ->
  1 <= P < 2 ^ 64 ->
  len bets <= 2 ^ 62 ->
  getWinners hash P bets = Returns (winners, err) ->
  forall w, w ∈ winners ->
    1 <= Winner.Ticket w <= P /\
    exists (k : nat) (b : Bet.t),
      bets !! k = Some b /\ owns bets k (Winner.Ticket w) /\
      Winner.PublicKey w = Bet.PublicKey b.
Proof.
  intros H16 Hhash Hpart HP Hbets Hrun w Hw.
  destruct (ranges_from_last 0 bets P Hpart ltac:(lia)) as (bl & Hlast & Hbl).
  destruct (getWinners_loop_spec prizes hash P bets HP Hbets
              ltac:(exists bl; split; [done | lia]) Hhash [] (len hash - 1))
    as (ws & Hloop & Hlen & Hall).
  { unfold len. simpl. lia. }
  unfold getWinners in Hrun.
  destruct (Z.leb_spec (len bets) 0) as [Hle|_].
  { destruct bets; [done|]. unfold len in Hle. simpl in Hle. lia. }
  rewrite int_id in Hrun by (unfold len in *; lia).
  rewrite Hloop in Hrun. cbn in Hrun. injection Hrun as <- <-.
  apply list_elem_of_lookup in Hw as [k Hk].
  assert (k < 8)%nat as Hk8 by (apply lookup_lt_Some in Hk; simpl in Hlen; lia).
  destruct (lookup_lt_is_Some_2 prizes k Hk8) as [prize Hprize].
  destruct (Hall k prize Hprize)
    as (w' & b1 & b2 & Hw' & _ & _ & _ & Hrange & Hpk & _).
  rewrite Hk in Hw'. injection Hw' as <-.
  split; [exact Hrange|].
  destruct (getPublicKey_partition_owner bets P (Winner.Ticket w) Hpart Hrange Hbets)
    as (j & b & Hj & Howns & Hpk').
  exists j, b. split; [done|]. split; [done|].
  rewrite Hpk in Hpk'. now injection Hpk'.
Qed.

(** X9 on the draw of the worked example. *)
Lemma getWinners_winners_own_tickets_example :
  partitions example_bets 1000 = true /\
  getWinners example_hash 1000 example_bets = Returns (example_winners, None) /\
  forall w, w ∈ example_winners ->
    1 <= Winner.Ticket w <= 1000 /\
    exists (k : nat) (b : Bet.t),
      example_bets !! k = Some b /\ owns example_bets k (Winner.Ticket w) /\
      Winner.PublicKey w = Bet.PublicKey b.
Proof.
  assert (getWinners example_hash 1000 example_bets = Returns (example_winners, None))
    as Hrun by (vm_compute; reflexivity).
  split; [reflexivity|]. split; [exact Hrun|].
  apply (getWinners_winners_own_tickets example_hash 1000 example_bets
           example_winners None);
    [simpl; lia | vm_compute; discriminate | reflexivity | lia
     | vm_compute; discriminate | exact Hrun].
Defined.

(** ** [notifyWinners] with and without chats *)

(** What the second loop ranges over: one entry per public key of a winner,
    with the sum of its prizes. *)
Lemma aggregate_entries (winners : list Winner.t) (entries : list (string * Z)) :
  Forall (fun w => is_uint64 (Winner.Prizes w)) winners ->
  entries ≡ₚ map_to_list (aggregate winners) ->
  NoDup entries.*1 /\
  (forall publicKey total,
      (publicKey, total) ∈ entries <->
      publicKey ∈ Winner.PublicKey <$> winners /\
      total = sum_uint64 (prizes_of publicKey winners)) /\
  length entries = length (remove_dups (Winner.PublicKey <$> winners)).
Proof.
  intros Huint Hperm.
  assert (forall publicKey total,
             (publicKey, total) ∈ entries <->
             publicKey ∈ Winner.PublicKey <$> winners /\
             total = sum_uint64 (prizes_of publicKey winners)) as Hentry.
  { intros publicKey total. rewrite Hperm, elem_of_map_to_list.
    rewrite aggregate_lookup by done.
    destruct (prizes_of publicKey winners) as [|p ps] eqn:Hps.
    - apply prizes_of_nil in Hps. split; [done | intros [? _]; done].
    - split.
      + intros [= <-]. split; [|done].
        destruct (decide (publicKey ∈ Winner.PublicKey <$> winners)) as [|Hnotin]; [done|].
        apply prizes_of_nil in Hnotin. now rewrite Hnotin in Hps.
      + intros [_ ->]. done. }
  assert (NoDup entries.*1) as Hnodup.
  { rewrite Hperm. apply NoDup_fst_map_to_list. }
  split; [exact Hnodup|]. split; [exact Hentry|].
  rewrite <- (length_fmap fst entries).
  apply Permutation_length, NoDup_Permutation; [exact Hnodup | apply NoDup_remove_dups |].
  intros publicKey. rewrite elem_of_remove_dups, list_elem_of_fmap. split.
  - intros ([pk total] & -> & Hin). apply Hentry in Hin as [Hin _]. exact Hin.
  - intros Hin. exists (publicKey, sum_uint64 (prizes_of publicKey winners)).
    split; [done|]. apply Hentry. done.
Qed.

Lemma notifyEntries_all_known (l : Lottery) (entries : list (string * Z)) :
  (forall hb publicKey, publicKey ∈ entries.*1 ->
      exists chatID, Notifications_GetChatID (db l) hb publicKey = Ok chatID) ->
  forall h : history,
  exists evs,
    notifyEntries l entries h = (Returns tt, h ++ evs) /\
    Forall2 (fun entry e =>
               exists hb chatID,
                 Notifications_GetChatID (db l) hb entry.1 = Ok chatID /\
                 e = EvNotify chatID (Congratulations l entry.2))
            entries evs.
Proof.
  induction entries as [|[publicKey prizes] entries IH]; intros Hknown h.
  - exists []. simpl. split; [now rewrite app_nil_r | constructor].
  - cbn [notifyEntries]. unfold bind. rewrite notifyEntry_run.
    destruct (Hknown h publicKey) as [chatID Hchat]; [left|].
    rewrite Hchat. cbn [delivery].
    destruct (IH ltac:(intros hb pk Hpk; apply Hknown; now right)
                 (h ++ [EvNotify chatID (Congratulations l prizes)]))
      as (evs & Hrun & Hevs).
    exists (EvNotify chatID (Congratulations l prizes) :: evs). split.
    + rewrite Hrun. now rewrite <- app_assoc.
    + constructor; [|done]. exists h, chatID. done.
Qed.

(** X10.  When the store knows a chat for every winner, [notifyWinners] sends
    exactly one notification per distinct participant and logs nothing; the
    message of a participant carries the sum of that participant's prizes. *)
Theorem notifyWinners_notifies_every_participant
    (l : Lottery) (winners : list Winner.t) (h : history) :
  ranges_each_entry_once l ->
  Forall (fun w => is_uint64 (Winner.Prizes w)) winners ->
  (forall hb publicKey, publicKey ∈ Winner.PublicKey <$> winners ->
      exists chatID, Notifications_GetChatID (db l) hb publicKey = Ok chatID) ->
  exists evs : list event,
    notifyWinners l winners h = (Returns tt, h ++ evs) /\
    length evs = length (remove_dups (Winner.PublicKey <$> winners)) /\
    Forall (fun e => is_notification e = true) evs /\
    (forall publicKey, publicKey ∈ Winner.PublicKey <$> winners ->
        exists hb chatID,
          Notifications_GetChatID (db l) hb publicKey = Ok chatID /\
          EvNotify chatID
            (Congratulations l (sum_uint64 (prizes_of publicKey winners))) ∈ evs).
Proof.
  intros Hrange Huint Hknown.
  destruct (aggregate_entries winners (map_range l h (aggregate winners)) Huint
              (Hrange h _)) as (Hnodup & Hentry & Hlen).
  destruct (notifyEntries_all_known l (map_range l h (aggregate winners))) with (h := h)
    as (evs & Hrun & Hevs).
  { intros hb publicKey Hin. apply Hknown.
    apply list_elem_of_fmap in Hin as ([pk total] & -> & Hin).
    now apply Hentry in Hin as [Hin _]. }
  exists evs. split; [exact Hrun|]. split; [|split].
  - rewrite <- Hlen. symmetry. eapply Forall2_length, Hevs.
  - clear -Hevs. induction Hevs as [|entry e entries evs (hb & chatID & _ & ->) _ IH];
      constructor; done.
  - intros publicKey Hin.
    assert ((publicKey, sum_uint64 (prizes_of publicKey winners))
              ∈ map_range l h (aggregate winners)) as Hin' by (apply Hentry; done).
    apply list_elem_of_lookup in Hin' as [i Hi].
    destruct (Forall2_lookup_l _ _ _ _ _ Hevs Hi) as (e & He & hb & chatID & Hchat & ->).
    exists hb, chatID. split; [exact Hchat|].
    eapply list_elem_of_lookup_2, He.
Qed.

(** X10 on the winners of the worked example, with a store that knows the
    chat 7 of every participant: "A" and "B" get one message each. *)
Lemma notifyWinners_notifies_every_participant_example :
  exists evs : list event,
    notifyWinners
      (example_lottery
         open_db 90 50)
      example_winners [] = (Returns tt, [] ++ evs) /\
    length evs = length (remove_dups (Winner.PublicKey <$> example_winners)) /\
    length evs = 2%nat.
Proof.
  destruct (notifyWinners_notifies_every_participant
              (example_lottery
                 open_db 90 50)
              example_winners [])
    as (evs & Hrun & Hlen & _).
  - intros h m. reflexivity.
  - unfold example_winners, is_uint64. repeat constructor; simpl; lia.
  - intros hb publicKey _. exists 7. reflexivity.
  - exists evs. split; [exact Hrun|]. split; [exact Hlen|].
    rewrite Hlen. vm_compute. reflexivity.
Defined.

Lemma notifyEntries_none_known (l : Lottery) (entries : list (string * Z)) :
  (forall hb publicKey, publicKey ∈ entries.*1 ->
      exists err, Notifications_GetChatID (db l) hb publicKey = Err err /\
                  errors_Is_ErrNoRows err = true) ->
  forall h : history, notifyEntries l entries h = (Returns tt, h).
Proof.
  induction entries as [|[publicKey prizes] entries IH]; intros Hnone h; [done|].
  cbn [notifyEntries]. unfold bind. rewrite notifyEntry_run.
  destruct (Hnone h publicKey) as (err & Herr & Hrows); [left|].
  rewrite Herr. cbn [delivery]. rewrite Hrows, app_nil_r.
  apply IH. intros hb pk Hpk. apply Hnone. now right.
Qed.

(** X11.  When the store answers [sql.ErrNoRows] (bare or wrapped) for every
    winner, [notifyWinners] does nothing at all: no notification and no log
    line.  This is also what it does on an empty list of winners. *)
Theorem notifyWinners_silent_without_chats
    (l : Lottery) (winners : list Winner.t) (h : history) :
  ranges_each_entry_once l ->
  Forall (fun w => is_uint64 (Winner.Prizes w)) winners ->
  (forall hb publicKey, publicKey ∈ Winner.PublicKey <$> winners ->
      exists err, Notifications_GetChatID (db l) hb publicKey = Err err /\
                  errors_Is_ErrNoRows err = true) ->
  notifyWinners l winners h = (Returns tt, h).
Proof.
  intros Hrange Huint Hnone.
  destruct (aggregate_entries winners (map_range l h (aggregate winners)) Huint
              (Hrange h _)) as (_ & Hentry & _).
  unfold notifyWinners, bind, ask.
  apply notifyEntries_none_known.
  intros hb publicKey Hin. apply Hnone.
  apply list_elem_of_fmap in Hin as ([pk total] & -> & Hin).
  now apply Hentry in Hin as [Hin _].
Qed.

(** X11 on the winners of the worked example, with a store without chats. *)
Lemma notifyWinners_silent_without_chats_example :
  notifyWinners (example_lottery (broken_db 100) 90 50) example_winners [] =
    (Returns tt, []) /\
  notifyWinners (example_lottery (broken_db 100) 90 50) [] [] = (Returns tt, []).
Proof.
  assert (ranges_each_entry_once (example_lottery (broken_db 100) 90 50)) as Hrange
    by (intros h m; reflexivity).
  split.
  - apply (notifyWinners_silent_without_chats
             (example_lottery (broken_db 100) 90 50) example_winners [] Hrange).
    + unfold example_winners, is_uint64. repeat constructor; simpl; lia.
    + intros hb publicKey _. exists ErrNoRows. split; reflexivity.
  - apply (notifyWinners_silent_without_chats
             (example_lottery (broken_db 100) 90 50) [] [] Hrange).
    + constructor.
    + intros hb publicKey Hin. by apply not_elem_of_nil in Hin.
Defined.

(** Sums of integers do not depend on the order. *)
Lemma sum_Z_permutation (xs ys : list Z) :
  xs ≡ₚ ys -> foldr Z.add 0 xs = foldr Z.add 0 ys.
Proof. induction 1; simpl; lia. Qed.

Lemma map_sum_insert_fresh (m : gmap string Z) (k : string) (v : Z) :
  m !! k = None ->
  foldr Z.add 0 (map_to_list (<[k := v]> m)).*2 = v + foldr Z.add 0 (map_to_list m).*2.
Proof.
  intros Hk. rewrite (sum_Z_permutation _ ((k, v) :: map_to_list m).*2); [done|].
  apply fmap_Permutation, map_to_list_insert, Hk.
Qed.

Lemma map_sum_lookup (m : gmap string Z) (k : string) (v0 : Z) :
  m !! k = Some v0 ->
  foldr Z.add 0 (map_to_list m).*2 = v0 + foldr Z.add 0 (map_to_list (delete k m)).*2.
Proof.
  intros Hk. rewrite <- (insert_delete_id m k v0 Hk) at 1.
  apply map_sum_insert_fresh, lookup_delete_eq.
Qed.

Lemma map_sum_insert_existing (m : gmap string Z) (k : string) (v0 v : Z) :
  m !! k = Some v0 ->
  foldr Z.add 0 (map_to_list (<[k := v]> m)).*2
  = v - v0 + foldr Z.add 0 (map_to_list m).*2.
Proof.
  intros Hk. rewrite (map_sum_lookup m k v0 Hk).
  rewrite <- insert_delete_eq, map_sum_insert_fresh by apply lookup_delete_eq. lia.
Qed.

Lemma map_sum_nonneg (m : gmap string Z) :
  (forall k v, m !! k = Some v -> 0 <= v) ->
  0 <= foldr Z.add 0 (map_to_list m).*2.
Proof.
  intros Hnonneg.
  assert (Forall (fun v => 0 <= v) (map_to_list m).*2) as Hall.
  { apply Forall_forall. intros v Hv.
    apply list_elem_of_fmap in Hv as ([k v'] & -> & Hin).
    apply elem_of_map_to_list in Hin. eapply Hnonneg, Hin. }
  induction Hall; simpl; lia.
Qed.

Lemma foldl_aggregate_sum (winners : list Winner.t) :
  Forall (fun w => is_uint64 (Winner.Prizes w)) winners ->
  forall m : gmap string Z,
    (forall k v, m !! k = Some v -> 0 <= v) ->
    foldr Z.add 0 (map_to_list m).*2
      + foldr Z.add 0 (Winner.Prizes <$> winners) < 2 ^ 64 ->
    foldr Z.add 0 (map_to_list (foldl aggregate_step m winners)).*2
    = foldr Z.add 0 (map_to_list m).*2 + foldr Z.add 0 (Winner.Prizes <$> winners).
Proof.
  induction 1 as [|w winners Hw Huint IH]; intros m Hnonneg Hsum; [simpl; lia|].
  unfold is_uint64 in Hw. cbn [foldl]. cbn [fmap list_fmap foldr] in *.
  assert (0 <= foldr Z.add 0 (Winner.Prizes <$> winners)) as Hrest.
  { clear -Huint. induction Huint as [|w' ws Hw' _ IHw]; [simpl; lia|].
    rewrite fmap_cons. cbn [foldr]. unfold is_uint64 in Hw'. lia. }
  unfold aggregate_step at 2.
  destruct (m !! Winner.PublicKey w) as [v0|] eqn:Hk.
  - pose proof (map_sum_lookup m _ v0 Hk) as Hm.
    assert (0 <= foldr Z.add 0 (map_to_list (delete (Winner.PublicKey w) m)).*2) as Hdel.
    { apply map_sum_nonneg. intros k v Hkv.
      apply lookup_delete_Some in Hkv as [_ Hkv]. eapply Hnonneg, Hkv. }
    pose proof (Hnonneg _ _ Hk) as Hv0.
    rewrite (uint64_id (v0 + Winner.Prizes w)) by lia.
    rewrite IH.
    + rewrite (map_sum_insert_existing m _ v0 _ Hk). lia.
    + intros k v Hkv. apply lookup_insert_Some in Hkv as [[_ <-]|[_ Hkv]]; [lia|].
      eapply Hnonneg, Hkv.
    + rewrite (map_sum_insert_existing m _ v0 _ Hk). lia.
  - rewrite IH.
    + rewrite (map_sum_insert_fresh m _ _ Hk). lia.
    + intros k v Hkv. apply lookup_insert_Some in Hkv as [[_ <-]|[_ Hkv]]; [lia|].
      eapply Hnonneg, Hkv.
    + rewrite (map_sum_insert_fresh m _ _ Hk). lia.
Qed.

(** X12.  The first loop of [notifyWinners] loses nothing: as long as the
    prizes of the winners add up to less than [2^64], the totals of the
    entries the second loop ranges over add up to the prizes of all winners. *)
Theorem notifyWinners_totals_add_up (l : Lottery) (winners : list Winner.t)
    (h : history) :
  ranges_each_entry_once l ->
  Forall (fun w => is_uint64 (Winner.Prizes w)) winners ->
  foldr Z.add 0 (Winner.Prizes <$> winners) < 2 ^ 64 ->
  foldr Z.add 0 (map_range l h (aggregate winners)).*2
  = foldr Z.add 0 (Winner.Prizes <$> winners).
Proof.
  intros Hrange Huint Hsum.
  rewrite (sum_Z_permutation _ (map_to_list (aggregate winners)).*2)
    by apply fmap_Permutation, Hrange.
  unfold aggregate.
  rewrite foldl_aggregate_sum;
    [| done | intros k v Hk; by rewrite lookup_empty in Hk |];
    rewrite map_to_list_empty; simpl; lia.
Qed.

(** X12 on the winners of the worked example: 497 for "A" and 500 for "B"
    are the 997 paid in the draw. *)
Lemma notifyWinners_totals_add_up_example :
  foldr Z.add 0 (Winner.Prizes <$> example_winners) = 997 /\
  foldr Z.add 0
    (map_range (example_lottery open_db 90 50) [] (aggregate example_winners)).*2
  = 997.
Proof.
  assert (foldr Z.add 0 (Winner.Prizes <$> example_winners) = 997) as Hsum
    by reflexivity.
  split; [exact Hsum|].
  rewrite (notifyWinners_totals_add_up (example_lottery open_db 90 50)
             example_winners []); [exact Hsum | | | ].
  - intros h m. reflexivity.
  - unfold example_winners, is_uint64. repeat constructor; simpl; lia.
  - rewrite Hsum. lia.
Defined.

(** ** [raffle]: where it can stop *)

Lemma notifyWinners_notes (l : Lottery) (winners : list Winner.t) (h : history) :
  exists notes,
    notifyWinners l winners h = (Returns tt, h ++ notes) /\
    Forall (fun e => is_note e = true) notes.
Proof.
  destruct (notifyWinners_events l winners h) as (evs & Hrun & Hevs).
  exists evs. split; [exact Hrun|]. apply Forall_forall. intros e He.
  destruct (Hevs e He) as [(chatID & message & ->)|(err & ->)]; reflexivity.
Qed.

(** The five places where [raffle] can stop, with what it has done by then. *)
Lemma raffle_outcome (l : Lottery) (block : BlockEpoch) (h : history) :
  exists out evs,
    raffle l block h = (out, h ++ evs) /\
    ((evs = [] /\
      ((exists err, out = Returns (Some err)) \/
       (out = Returns None /\ Bets_List (db l) h 0 0 false = Ok [])))
     \/ (evs = [EvBetsReset] /\ out <> Returns None)
     \/ (exists winners err,
            evs = [EvBetsReset; EvWinnersAdd (Height block) winners] /\
            out = Returns (Some (Wrap err "saving winners")))
     \/ (exists winners notes err,
            evs = [EvBetsReset; EvWinnersAdd (Height block) winners;
                   EvSendWinners winners]
                  ++ notes ++ [EvExpirePrizes (expiryThreshold l block)] /\
            Forall (fun e => is_note e = true) notes /\
            out = Returns (Some err))
     \/ (exists winners notes expired r,
            evs = [EvBetsReset; EvWinnersAdd (Height block) winners;
                   EvSendWinners winners]
                  ++ notes
                  ++ [EvExpirePrizes (expiryThreshold l block);
                      EvLogInfof "Expired prizes: %d" expired;
                      EvNotificationsExpire] /\
            Forall (fun e => is_note e = true) notes /\
            out = Returns r)).
Proof.
  unfold raffle, fetch, check, bind, ask, emit, call, lift, ret.
  destruct (Bets_List (db l) h 0 0 false) as [bets|err] eqn:Hlist.
  2: { exists (Returns (Some (Wrap err "listing bets"))), [].
       rewrite app_nil_r. split; [done|]. left. split; [done|]. left. eauto. }
  destruct (Z.eqb_spec (len bets) 0) as [Hempty|Hbets].
  { exists (Returns None), []. rewrite app_nil_r. split; [done|]. left.
    split; [done|]. right. split; [done|].
    destruct bets; [done|]. unfold len in Hempty. simpl in Hempty. lia. }
  destruct (Bets_GetPrizePool (db l) h) as [prizePool|err].
  2: { exists (Returns (Some (id err))), []. rewrite app_nil_r.
       split; [done|]. left. split; [done|]. left. eauto. }
  destruct (Bets_Reset (db l) h) as [err|].
  { eexists _, [EvBetsReset]. split; [done|]. right. left. done. }
  destruct (getWinners (Hash block) prizePool bets) as [[winners [err|]]| |];
    try (eexists _, [EvBetsReset]; split; [done|]; right; left; done).
  destruct (Winners_Add (db l) _ (Height block) winners) as [err|].
  { eexists _, [EvBetsReset; EvWinnersAdd (Height block) winners].
    split; [now rewrite <- app_assoc|]. do 2 right. left. eauto. }
  cbv beta iota.
  match goal with
  | |- context [notifyWinners l winners ?h0] =>
      destruct (notifyWinners_notes l winners h0) as (notes & -> & Hnotes)
  end.
  destruct (Winners_ExpirePrizes (db l) _ (expiryThreshold l block)) as [expired|err].
  - destruct (Notifications_Expire (db l) _) as [err|];
      eexists _, _; (split; [rewrite <- !app_assoc; reflexivity|]);
      do 4 right; exists winners, notes, expired; eexists; done.
  - eexists _, _. split; [rewrite <- !app_assoc; reflexivity|].
    do 3 right. left. exists winners, notes, (id err). done.
Qed.

Lemma notes_hold_no_send (notes : list event) :
  Forall (fun e => is_note e = true) notes ->
  filter (fun e => is_send e = true) notes = [] /\
  Forall (fun e => is_height_write e = false) notes.
Proof.
  induction 1 as [|e notes He _ [IHs IHh]]; [done|].
  split.
  - rewrite filter_cons_False; [exact IHs|]. now destruct e.
  - constructor; [|done]. now destruct e.
Qed.

(** X13.  Whatever the collaborators answer, [raffle] never sets or clears a
    target height, its first effect (if any) is the reset of the bets, and it
    sends at most one batch on [winnersCh]: the batch [Winners.Add] has just
    accepted, right after the reset.  It returns [nil] only when it did
    nothing (no bets) or went through to the expiry of the notifications. *)
Theorem raffle_effects_in_order (l : Lottery) (block : BlockEpoch) (h : history) :
  exists out evs,
    raffle l block h = (out, h ++ evs) /\
    Forall (fun e => is_height_write e = false) evs /\
    (forall e, head evs = Some e -> e = EvBetsReset) /\
    (length (filter (fun e => is_send e = true) evs) <= 1)%nat /\
    (forall winners, EvSendWinners winners ∈ evs ->
        exists rest,
          evs = [EvBetsReset; EvWinnersAdd (Height block) winners;
                 EvSendWinners winners] ++ rest) /\
    (out = Returns None ->
     (evs = [] /\ Bets_List (db l) h 0 0 false = Ok []) \/
     exists rest, evs = rest ++ [EvNotificationsExpire]).
Proof.
  destruct (raffle_outcome l block h) as (out & evs & Hrun & Hshape).
  exists out, evs. split; [exact Hrun|].
  destruct Hshape as [[-> Hout]
                     |[[-> Hout]
                     |[(ws & err & -> & ->)
                     |[(ws & notes & err & -> & Hnotes & ->)
                     |(ws & notes & expired & r & -> & Hnotes & ->)]]]].
  - split; [constructor|]. split; [done|]. split; [simpl; lia|].
    split; [intros ws Hin; by apply not_elem_of_nil in Hin|].
    intros ->. destruct Hout as [(err & [=])|[_ Hempty]]. now left.
  - split; [repeat constructor|]. split; [now intros e [= <-]|].
    split; [simpl; lia|]. split; [|done].
    intros ws Hin. apply list_elem_of_singleton in Hin. discriminate.
  - split; [repeat constructor|]. split; [now intros e [= <-]|].
    split; [simpl; lia|]. split; [|done].
    intros ws' Hin. repeat (apply elem_of_cons in Hin as [Hin|Hin]; [discriminate|]).
    by apply not_elem_of_nil in Hin.
  - destruct (notes_hold_no_send notes Hnotes) as [Hsend Hheight].
    split.
    { repeat (apply Forall_cons; split; [reflexivity|]).
      apply Forall_app. split; [exact Hheight | repeat constructor]. }
    split; [now intros e [= <-]|]. split.
    { cbn [app]. rewrite !filter_cons. cbn. rewrite filter_app, Hsend. simpl. lia. }
    split; [|done].
    intros ws' Hin. cbn [app] in Hin.
    do 2 (apply elem_of_cons in Hin as [Hin|Hin]; [discriminate|]).
    apply elem_of_cons in Hin as [[= ->]|Hin]; [eauto|].
    apply elem_of_app in Hin as [Hin|Hin].
    + rewrite Forall_forall in Hnotes. specialize (Hnotes _ Hin). discriminate.
    + apply list_elem_of_singleton in Hin. discriminate.
  - destruct (notes_hold_no_send notes Hnotes) as [Hsend Hheight].
    split.
    { repeat (apply Forall_cons; split; [reflexivity|]).
      apply Forall_app. split; [exact Hheight | repeat constructor]. }
    split; [now intros e [= <-]|]. split.
    { cbn [app]. rewrite !filter_cons. cbn. rewrite filter_app, Hsend. simpl. lia. }
    split.
    + intros ws' Hin. cbn [app] in Hin.
      do 2 (apply elem_of_cons in Hin as [Hin|Hin]; [discriminate|]).
      apply elem_of_cons in Hin as [[= ->]|Hin]; [eauto|].
      apply elem_of_app in Hin as [Hin|Hin].
      * rewrite Forall_forall in Hnotes. specialize (Hnotes _ Hin). discriminate.
      * repeat (apply elem_of_cons in Hin as [Hin|Hin]; [discriminate|]).
        by apply not_elem_of_nil in Hin.
    + intros _. right.
      exists ([EvBetsReset; EvWinnersAdd (Height block) ws; EvSendWinners ws]
                ++ notes
                ++ [EvExpirePrizes (expiryThreshold l block);
                    EvLogInfof "Expired prizes: %d" expired]).
      now rewrite <- !app_assoc.
Qed.

Lemma getWinners_returns_eight (hash : list Byte.byte) (P : Z) (bets : list Bet.t) :
  (16 <= length hash)%nat -> len hash <= 2 ^ 62 ->
  1 <= P < 2 ^ 64 -> len bets <= 2 ^ 62 ->
  (exists b, last bets = Some b /\ P <= Bet.Index b) ->
  exists winners,
    getWinners hash P bets = Returns (winners, None) /\ length winners = 8%nat.
Proof.
  intros H16 Hhash HP Hbets Hlast.
  destruct (getWinners_loop_spec prizes hash P bets HP Hbets Hlast Hhash []
              (len hash - 1)) as (ws & Hloop & Hlen & _).
  { unfold len. simpl. lia. }
  exists ws. split; [|exact Hlen].
  unfold getWinners.
  destruct (Z.leb_spec (len bets) 0) as [Hle|_].
  { destruct Hlast as (b & Hl & _). destruct bets; [done|].
    unfold len in Hle. simpl in Hle. lia. }
  rewrite int_id by (unfold len in *; lia). now rewrite Hloop.
Qed.

(** X14.  A round is lost when the winners cannot be saved: on a draw with
    bets, if [Winners.Add] fails, [raffle] returns the error wrapped as
    "saving winners" after the bets were reset, and the 8 winners it drew are
    neither sent on [winnersCh] nor notified. *)
Theorem raffle_failed_save_loses_round (l : Lottery) (block : BlockEpoch)
    (h : history) (bets : list Bet.t) (P : Z) (err : error) :
  (16 <= length (Hash block))%nat ->
  len (Hash block) <= 2 ^ 62 ->
  Bets_List (db l) h 0 0 false = Ok bets ->
  Bets_GetPrizePool (db l) h = Ok P ->
  1 <= P < 2 ^ 64 ->
  len bets <= 2 ^ 62 ->
  (exists b, last bets = Some b /\ P <= Bet.Index b) ->
  Bets_Reset (db l) h = None ->
  (forall winners,
      Winners_Add (db l) (h ++ [EvBetsReset]) (Height block) winners = Some err) ->
  exists winners,
    length winners = 8%nat /\
    raffle l block h =
      (Returns (Some (Wrap err "saving winners")),
       h ++ [EvBetsReset; EvWinnersAdd (Height block) winners]).
Proof.
  intros H16 Hhash Hlist Hpool HP Hbets Hlast Hreset Hadd.
  destruct (getWinners_returns_eight (Hash block) P bets H16 Hhash HP Hbets Hlast)
    as (ws & Hrun & Hlen).
  exists ws. split; [exact Hlen|].
  unfold raffle, fetch, check, bind, ask, emit, call, lift, ret.
  rewrite Hlist.
  destruct (Z.eqb_spec (len bets) 0) as [Hempty|_].
  { destruct Hlast as (b & Hl & _). destruct bets; [done|].
    unfold len in Hempty. simpl in Hempty. lia. }
  rewrite Hpool, Hreset, Hrun, Hadd. now rewrite <- app_assoc.
Qed.

(** X14 on the store of the worked example with a full disk. *)
Lemma raffle_failed_save_loses_round_example :
  raffle (example_lottery unsaved_db 90 50)
         {| Hash := example_hash; Height := 100 |} [] =
    (Returns (Some (Wrap (ErrOther "disk full") "saving winners")),
     [EvBetsReset; EvWinnersAdd 100 example_winners]) /\
  exists winners,
    length winners = 8%nat /\
    raffle (example_lottery unsaved_db 90 50)
           {| Hash := example_hash; Height := 100 |} [] =
      (Returns (Some (Wrap (ErrOther "disk full") "saving winners")),
       [] ++ [EvBetsReset; EvWinnersAdd 100 winners]).
Proof.
  split; [vm_compute; reflexivity|].
  apply (raffle_failed_save_loses_round (example_lottery unsaved_db 90 50)
           {| Hash := example_hash; Height := 100 |} [] example_bets 1000
           (ErrOther "disk full"));
    try reflexivity; try (simpl; lia); try (vm_compute; discriminate).
  exists (Bet.mk "C" 1000). split; [reflexivity | simpl; lia].
Defined.

(** ** [Start]: errors and the target it hands on *)

(** X15.  [Start] returns an error only when one of its calls failed, and
    then returns that very error, unwrapped, without logging a target: the
    query of the node or of the stored target (nothing written), the deletion
    of a stale target (the new target is then never added), or [AddHeight]
    (after a stale target, if any, was already deleted). *)
Theorem Start_returns_first_error (l : Lottery) (h h' : history) (err : error) :
  Start l h = (Returns (Err err), h') ->
  (lnd_GetInfo l h = Err err /\ h' = h) \/
  (exists H, lnd_GetInfo l h = Ok H /\
             Lotteries_GetNextHeight (db l) h = Err err /\ h' = h) \/
  (exists H T, lnd_GetInfo l h = Ok H /\
               Lotteries_GetNextHeight (db l) h = Ok T /\
               T <> 0 /\ T < H /\
               Lotteries_DeleteHeight (db l) h T = Some err /\
               h' = h ++ [EvDeleteHeight T]) \/
  (exists H, lnd_GetInfo l h = Ok H /\
             Lotteries_GetNextHeight (db l) h = Ok 0 /\
             Lotteries_AddHeight (db l) h (uint32 (H + blocksDuration l)) = Some err /\
             h' = h ++ [EvAddHeight (uint32 (H + blocksDuration l))]) \/
  (exists H T, lnd_GetInfo l h = Ok H /\
               Lotteries_GetNextHeight (db l) h = Ok T /\
               T <> 0 /\ T < H /\
               Lotteries_DeleteHeight (db l) h T = None /\
               Lotteries_AddHeight (db l) (h ++ [EvDeleteHeight T])
                 (uint32 (H + blocksDuration l)) = Some err /\
               h' = h ++ [EvDeleteHeight T;
                          EvAddHeight (uint32 (H + blocksDuration l))]).
Proof.
  unfold Start, bind, ask, emit, call, ret.
  destruct (lnd_GetInfo l h) as [H|e1]; [|intros [= <- <-]; now left].
  destruct (Lotteries_GetNextHeight (db l) h) as [T|e2];
    [|intros [= <- <-]; right; left; eauto].
  destruct (Z.eqb_spec T 0) as [->|Hne]; cbn [orb negb andb].
  - destruct (Lotteries_AddHeight (db l) h _) as [e3|] eqn:Hadd; [|discriminate].
    intros [= <- <-]. do 3 right. left. eauto.
  - destruct (Z.ltb_spec T H) as [Hlt|Hge]; [|discriminate].
    destruct (Lotteries_DeleteHeight (db l) h T) as [e3|] eqn:Hdel.
    + intros [= <- <-]. do 2 right. left. exists H, T. done.
    + destruct (Lotteries_AddHeight (db l) _ _) as [e4|] eqn:Hadd; [|discriminate].
      intros [= <- <-]. do 4 right. exists H, T.
      rewrite <- app_assoc. done.
Qed.

(** X15 on a store that accepts no write: the node is past the target 100,
    the deletion fails, and no target is added. *)
Lemma Start_returns_first_error_example :
  Start (example_lottery (readonly_db 100) 151 50) [] =
    (Returns (Err (ErrOther "readonly database")), [EvDeleteHeight 100]) /\
  Lotteries_DeleteHeight (db (example_lottery (readonly_db 100) 151 50)) [] 100
    = Some (ErrOther "readonly database").
Proof.
  assert (Start (example_lottery (readonly_db 100) 151 50) [] =
            (Returns (Err (ErrOther "readonly database")), [EvDeleteHeight 100]))
    as Hrun by reflexivity.
  split; [exact Hrun|].
  destruct (Start_returns_first_error _ _ _ _ Hrun)
    as [[Hinfo _]|[(H & _ & Hnext & _)|[(H & T & _ & _ & _ & _ & Hdel & _)
       |[(H & _ & Hnext & _)|(H & T & _ & _ & _ & _ & Hdel & _)]]]];
    try discriminate; reflexivity.
Defined.

(** X16.  When [Start] succeeds, the target it hands to the watcher is the
    one the store holds (the stored one, or the one just added), it is the
    one logged last, and, as long as [H + D] fits [uint32], it is not below
    the height of the chain. *)
Theorem Start_target_is_stored_and_not_past (l : Lottery) (h h' : history)
    (H target : Z) :
  lnd_GetInfo l h = Ok H ->
  0 <= blocksDuration l ->
  0 <= H + blocksDuration l < 2 ^ 32 ->
  Start l h = (Returns (Ok target), h') ->
  H <= target /\
  last h' = Some (EvLogInfof "Next block height target: %d" target) /\
  ((Lotteries_GetNextHeight (db l) h = Ok target /\ added_heights h' = added_heights h)
   \/ (target = H + blocksDuration l /\
       added_heights h' = added_heights h ++ [target])).
Proof.
  intros Hinfo HD Hfit. unfold Start, bind, ask, emit, call, ret.
  rewrite Hinfo, (uint32_id (H + blocksDuration l)) by lia.
  destruct (Lotteries_GetNextHeight (db l) h) as [T|e2]; [|discriminate].
  assert (forall evs e, added_heights (evs ++ [e]) = added_heights evs ++ added_heights [e])
    as Happ by (intros evs e; unfold added_heights; apply omap_app).
  destruct (Z.eqb_spec T 0) as [->|Hne]; cbn [orb negb andb].
  - destruct (Lotteries_AddHeight (db l) h _) as [e3|]; [discriminate|].
    intros [= <- <-]. split; [lia|]. split; [now rewrite last_snoc|].
    right. split; [done|]. rewrite !Happ. cbn. now rewrite app_nil_r.
  - destruct (Z.ltb_spec T H) as [Hlt|Hge].
    + destruct (Lotteries_DeleteHeight (db l) h T) as [e3|]; [discriminate|].
      destruct (Lotteries_AddHeight (db l) _ _) as [e4|]; [discriminate|].
      intros [= <- <-]. split; [lia|]. split; [now rewrite last_snoc|].
      right. split; [done|]. rewrite !Happ. cbn. now rewrite !app_nil_r.
    + intros [= <- <-]. split; [lia|]. split; [now rewrite last_snoc|].
      left. split; [done|]. rewrite Happ. cbn. now rewrite app_nil_r.
Qed.

(** X16 on the store of the worked example: the stored target 100 is kept
    by a node at height 100 and replaced by 201 by a node at height 151. *)
Lemma Start_target_is_stored_and_not_past_example :
  (100 <= 100 /\
   Start (example_lottery (example_db 100 [] 0) 100 50) [] =
     (Returns (Ok 100), [EvLogInfof "Next block height target: %d" 100])) /\
  (151 <= 201 /\
   added_heights [EvDeleteHeight 100; EvAddHeight 201;
                  EvLogInfof "Next block height target: %d" 201] = [201]).
Proof.
  split.
  - split; [|reflexivity].
    apply (Start_target_is_stored_and_not_past
             (example_lottery (example_db 100 [] 0) 100 50) []
             [EvLogInfof "Next block height target: %d" 100] 100 100);
      [reflexivity | simpl; lia | simpl; lia | reflexivity].
  - split; [|reflexivity].
    apply (Start_target_is_stored_and_not_past
             (example_lottery (example_db 100 [] 0) 151 50) []
             [EvDeleteHeight 100; EvAddHeight 201;
              EvLogInfof "Next block height target: %d" 201] 151 201);
      [reflexivity | simpl; lia | simpl; lia | reflexivity].
Defined.

(** ** The watcher over a stream of blocks *)

(** X17.  Blocks of other heights than the target change nothing, however
    many arrive: the watcher keeps its target and touches neither store nor
    log.  A target whose block never arrives is therefore never replaced. *)
Theorem watchLoop_waits_for_target (l : Lottery) (nextHeight : Z)
    (blocks : list BlockEpoch) (h : history) :
  Forall (fun block => Height block <> nextHeight) blocks ->
  watchLoop l nextHeight blocks h = (Returns nextHeight, h).
Proof.
  induction 1 as [|block blocks Hne _ IH]; [done|].
  cbn [watchLoop]. unfold bind.
  rewrite (watch_ignores_other_heights l nextHeight block h Hne). exact IH.
Qed.

(** X17 for a watcher that waits for height 100 while the chain moves from
    101 to 103. *)
Lemma watchLoop_waits_for_target_example :
  watchLoop (example_lottery (example_db 100 example_bets 1000) 90 50) 100
    [ {| Hash := example_hash; Height := 101 |};
      {| Hash := example_hash; Height := 102 |};
      {| Hash := example_hash; Height := 103 |} ] [] = (Returns 100, []).
Proof.
  apply (watchLoop_waits_for_target
           (example_lottery (example_db 100 example_bets 1000) 90 50) 100).
  repeat constructor; simpl; lia.
Defined.

Lemma added_heights_app (evs evs' : list event) :
  added_heights (evs ++ evs') = added_heights evs ++ added_heights evs'.
Proof. unfold added_heights. apply omap_app. Qed.

Lemma added_heights_notes (notes : list event) :
  Forall (fun e => is_note e = true) notes -> added_heights notes = [].
Proof.
  induction 1 as [|e notes He _ IH]; [done|].
  unfold added_heights in *. cbn [omap list_omap]. rewrite IH. now destruct e.
Qed.

Lemma raffle_adds_no_height (l : Lottery) (block : BlockEpoch) (h : history) :
  exists out evs, raffle l block h = (out, h ++ evs) /\ added_heights evs = [].
Proof.
  destruct (raffle_outcome l block h) as (out & evs & Hrun & Hshape).
  exists out, evs. split; [exact Hrun|].
  destruct Hshape as [[-> _]
                     |[[-> _]
                     |[(ws & err & -> & _)
                     |[(ws & notes & err & -> & Hnotes & _)
                     |(ws & notes & expired & r & -> & Hnotes & _)]]]];
    try reflexivity;
    rewrite !added_heights_app, (added_heights_notes notes Hnotes); reflexivity.
Qed.

(** One iteration of the watcher that returns: the block was dropped, or the
    target moved one step and exactly that height was handed to
    [AddHeight]. *)
Lemma watch_step (l : Lottery) (nextHeight : Z) (block : BlockEpoch)
    (h h' : history) (target : Z) :
  watch l nextHeight block h = (Returns target, h') ->
  (Height block <> nextHeight /\ target = nextHeight /\ h' = h) \/
  (Height block = nextHeight /\
   target = uint32 (nextHeight + blocksDuration l) /\
   exists evs, h' = h ++ evs /\ added_heights evs = [target]).
Proof.
  intros Hrun.
  destruct (Z.eq_dec (Height block) nextHeight) as [Heq|Hne].
  2: { rewrite (watch_ignores_other_heights l nextHeight block h Hne) in Hrun.
       injection Hrun as <- <-. now left. }
  right. split; [exact Heq|].
  destruct (raffle_adds_no_height l
              {| Hash := rev (Hash block); Height := Height block |} h)
    as (out & evs & Hraffle & Hnone).
  destruct out as [r| |].
  - rewrite (watch_after_raffle l nextHeight block h (h ++ evs) r Heq Hraffle) in Hrun.
    injection Hrun as <- <-. split; [done|].
    eexists. split; [rewrite <- !app_assoc; reflexivity|].
    assert (forall e, added_heights (logged e) = []) as Hlogged
      by (intros e; now destruct e).
    rewrite !added_heights_app, Hnone, Hlogged.
    change (added_heights (?e :: ?evs')) with (added_heights ([e] ++ evs')).
    rewrite !added_heights_app, Hlogged. reflexivity.
  - unfold watch in Hrun. destruct (Z.eqb_spec (Height block) nextHeight); [|done].
    cbn [negb] in Hrun. unfold bind at 1 in Hrun. rewrite Hraffle in Hrun. done.
  - unfold watch in Hrun. destruct (Z.eqb_spec (Height block) nextHeight); [|done].
    cbn [negb] in Hrun. unfold bind at 1 in Hrun. rewrite Hraffle in Hrun. done.
Qed.

Lemma uint32_step_moves (T D : Z) :
  is_uint32 T -> 0 < D < 2 ^ 32 -> uint32 (T + D) <> T.
Proof.
  unfold is_uint32, uint32. intros HT HD Heq.
  destruct (Z.lt_ge_cases (T + D) (2 ^ 32)) as [Hlt|Hge].
  - rewrite Z.mod_small in Heq by lia. lia.
  - assert ((T + D) mod 2 ^ 32 = T + D - 2 ^ 32) as Hmod.
    { symmetry. apply (Z.mod_unique _ _ 1); [left|]; lia. }
    lia.
Qed.

(** X18.  One draw per target height: after the draw on the block of the
    target height the target has moved (for a step between 1 and
    [2^32 - 1]), so the same block delivered again is dropped. *)
Theorem watch_draws_once_per_height (l : Lottery) (nextHeight : Z)
    (block : BlockEpoch) (h h' : history) (target : Z) :
  is_uint32 nextHeight ->
  0 < blocksDuration l < 2 ^ 32 ->
  Height block = nextHeight ->
  watch l nextHeight block h = (Returns target, h') ->
  target <> Height block /\
  watch l target block h' = (Returns target, h') /\
  watchLoop l nextHeight [block; block] h = (Returns target, h').
Proof.
  intros HT HD Heq Hrun.
  destruct (watch_step l nextHeight block h h' target Hrun)
    as [(Hne & _)|(_ & Htarget & _)]; [done|].
  assert (target <> Height block) as Hmoved.
  { rewrite Htarget, Heq. now apply uint32_step_moves. }
  assert (watch l target block h' = (Returns target, h')) as Hagain.
  { apply watch_ignores_other_heights. congruence. }
  split; [exact Hmoved|]. split; [exact Hagain|].
  cbn [watchLoop]. unfold bind at 1. rewrite Hrun.
  unfold bind at 1. rewrite Hagain. reflexivity.
Qed.

(** X18 on an empty round at height 100, delivered twice. *)
Lemma watch_draws_once_per_height_example :
  watchLoop (example_lottery (example_db 100 [] 0) 90 50) 100
    [ {| Hash := example_hash; Height := 100 |};
      {| Hash := example_hash; Height := 100 |} ] [] =
    (Returns 150, [EvAddHeight 150; EvLogInfof "Next block height target: %d" 150]).
Proof.
  apply (watch_draws_once_per_height
           (example_lottery (example_db 100 [] 0) 90 50) 100
           {| Hash := example_hash; Height := 100 |} []
           [EvAddHeight 150; EvLogInfof "Next block height target: %d" 150] 150);
    [unfold is_uint32; lia | simpl; lia | reflexivity | reflexivity].
Defined.

(** X19.  Over any stream of blocks the watcher gets through, the target
    moves by whole steps: after [k] draws it is the first target plus [k]
    steps (in [uint32]), and the heights handed to [AddHeight] are, in order,
    the first target plus 1, 2, ..., [k] steps. *)
Theorem watchLoop_targets_step_by_step (l : Lottery) (blocks : list BlockEpoch) :
  forall (nextHeight : Z) (h h' : history) (target : Z),
    is_uint32 nextHeight ->
    watchLoop l nextHeight blocks h = (Returns target, h') ->
    exists (k : nat) (evs : list event),
      (k <= length blocks)%nat /\
      h' = h ++ evs /\
      target = uint32 (nextHeight + Z.of_nat k * blocksDuration l) /\
      added_heights evs =
        (fun j => uint32 (nextHeight + Z.of_nat j * blocksDuration l)) <$> seq 1 k.
Proof.
  induction blocks as [|block blocks IH]; intros nextHeight h h' target HT Hrun.
  - cbn in Hrun. injection Hrun as <- <-. exists 0%nat, [].
    split; [done|]. split; [now rewrite app_nil_r|]. split; [|done].
    rewrite Z.mul_0_l, Z.add_0_r. symmetry. now apply uint32_id.
  - cbn [watchLoop] in Hrun. unfold bind at 1 in Hrun.
    destruct (watch l nextHeight block h) as [[t1| |] h1] eqn:Hwatch; try done.
    destruct (watch_step l nextHeight block h h1 t1 Hwatch)
      as [(_ & -> & ->)|(_ & Ht1 & evs1 & -> & Hadded)].
    + destruct (IH nextHeight h h' target HT Hrun) as (k & evs & Hk & -> & Ht & Hevs).
      exists k, evs. split; [simpl; lia|]. done.
    + assert (is_uint32 t1) as HT1 by (rewrite Ht1; apply uint32_range).
      destruct (IH t1 (h ++ evs1) h' target HT1 Hrun) as (k & evs & Hk & -> & Ht & Hevs).
      assert (forall j : nat,
                 uint32 (t1 + Z.of_nat j * blocksDuration l)
                 = uint32 (nextHeight + Z.of_nat (S j) * blocksDuration l)) as Hshift.
      { intros j. rewrite Ht1. unfold uint32. rewrite Zplus_mod_idemp_l.
        f_equal. lia. }
      exists (S k), (evs1 ++ evs). split; [simpl; lia|].
      split; [now rewrite app_assoc|]. split; [now rewrite Ht, Hshift|].
      rewrite added_heights_app, Hadded, Hevs.
      cbn [seq fmap list_fmap app].
      assert (t1 = uint32 (nextHeight + Z.of_nat 1 * blocksDuration l)) as Hfirst.
      { rewrite Ht1. f_equal. lia. }
      rewrite <- Hfirst. f_equal.
      change (list_fmap nat Z ?f ?xs) with (f <$> xs).
      rewrite <- (seq_shift k 1), <- list_fmap_compose.
      apply list_fmap_ext. intros i j _. cbn. apply Hshift.
Qed.

(** X19 for two empty rounds: from target 100 and step 50 the watcher draws
    at 100 and 150, ignores 101, and ends on 200. *)
Lemma watchLoop_targets_step_by_step_example :
  watchLoop (example_lottery (example_db 100 [] 0) 90 50) 100
    [ {| Hash := example_hash; Height := 100 |};
      {| Hash := example_hash; Height := 101 |};
      {| Hash := example_hash; Height := 150 |} ] [] =
    (Returns 200,
     [EvAddHeight 150; EvLogInfof "Next block height target: %d" 150;
      EvAddHeight 200; EvLogInfof "Next block height target: %d" 200]) /\
  exists (k : nat) (evs : list event),
    (k <= 3)%nat /\
    [EvAddHeight 150; EvLogInfof "Next block height target: %d" 150;
     EvAddHeight 200; EvLogInfof "Next block height target: %d" 200] = [] ++ evs /\
    200 = uint32 (100 + Z.of_nat k * 50) /\
    added_heights evs = (fun j => uint32 (100 + Z.of_nat j * 50)) <$> seq 1 k.
Proof.
  assert (watchLoop (example_lottery (example_db 100 [] 0) 90 50) 100
            [ {| Hash := example_hash; Height := 100 |};
              {| Hash := example_hash; Height := 101 |};
              {| Hash := example_hash; Height := 150 |} ] [] =
          (Returns 200,
           [EvAddHeight 150; EvLogInfof "Next block height target: %d" 150;
            EvAddHeight 200; EvLogInfof "Next block height target: %d" 200]))
    as Hrun by reflexivity.
  split; [exact Hrun|].
  apply (watchLoop_targets_step_by_step _ _ 100 [] _ 200 ltac:(unfold is_uint32; lia) Hrun).
Defined.

Lemma raffle_same_winners (l : Lottery) (hash hash' : list Byte.byte) (H : Z)
    (h : history) :
  (forall P bets, getWinners hash P bets = getWinners hash' P bets) ->
  raffle l {| Hash := hash; Height := H |} h
  = raffle l {| Hash := hash'; Height := H |} h.
Proof.
  intros Hsame. unfold raffle, fetch, check, bind, ask, emit, call, lift, ret.
  cbn [Hash Height]. unfold expiryThreshold. cbn [Height].
  destruct (Bets_List (db l) h 0 0 false) as [bets|err]; [|done].
  destruct (len bets =? 0); [done|].
  destruct (Bets_GetPrizePool (db l) h) as [prizePool|err]; [|done].
  destruct (Bets_Reset (db l) h) as [err|]; [done|].
  now rewrite Hsame.
Qed.

(** X20.  The watcher reverses the hash of the block before the draw, so of
    a delivered 32-byte hash only the first 16 bytes count: two blocks of the
    same height whose delivered hashes agree on them give the same
    iteration, winners and all. *)
Theorem watch_reads_first_16_delivered_bytes (l : Lottery) (nextHeight H : Z)
    (hash hash' : list Byte.byte) (h : history) :
  length hash = 32%nat -> length hash' = 32%nat ->
  take 16 hash = take 16 hash' ->
  watch l nextHeight {| Hash := hash; Height := H |} h
  = watch l nextHeight {| Hash := hash'; Height := H |} h.
Proof.
  intros H32 H32' Htake. unfold watch. cbn [Hash Height].
  destruct (negb (H =? nextHeight)); [done|].
  unfold bind at 1 3.
  rewrite (raffle_same_winners l (rev hash) (rev hash') H h); [done|].
  intros P bets. apply getWinners_ext.
  - now rewrite length_rev.
  - now rewrite length_rev.
  - rewrite !skipn_rev, H32, H32'. cbn [Nat.sub]. now rewrite Htake.
Qed.

(** X20 on the reversed hash of the worked example and on a hash that only
    shares its first 16 bytes: the same draw at height 100. *)
Lemma watch_reads_first_16_delivered_bytes_example :
  length (rev example_hash) = 32%nat /\
  take 16 (rev example_hash) = take 16 (take 16 (rev example_hash) ++ repeat Byte.xff 16) /\
  watch (example_lottery (example_db 100 example_bets 1000) 90 50) 100
        {| Hash := rev example_hash; Height := 100 |} []
  = watch (example_lottery (example_db 100 example_bets 1000) 90 50) 100
        {| Hash := take 16 (rev example_hash) ++ repeat Byte.xff 16; Height := 100 |} [].
Proof.
  split; [reflexivity|]. split; [reflexivity|].
  apply (watch_reads_first_16_delivered_bytes
           (example_lottery (example_db 100 example_bets 1000) 90 50) 100 100
           (rev example_hash) (take 16 (rev example_hash) ++ repeat Byte.xff 16) []);
    reflexivity.
Defined.

(** ** [GetInfo] *)

(** X21.  [GetInfo] only reads: it always returns, and leaves the history as
    it was.  It fails exactly when one of its three reads fails (balance,
    pool, target, in this order), with the error of that read and the zero
    [Info].  Otherwise the capacity is the balance divided by 5, rounded
    towards zero, and the pool is reported through [int64]: as it is below
    [2^63], and as a negative number from there on. *)
Theorem GetInfo_reads_only (lnd_RemoteBalance : history -> result Z) (d : DB)
    (h : history) :
  exists info e,
    GetInfo lnd_RemoteBalance d h = (Returns (info, e), h) /\
    match e with
    | Some err =>
        info = {| PrizePool := 0; Capacity := 0; NextHeight := 0 |} /\
        (lnd_RemoteBalance h = Err err \/
         (exists B, lnd_RemoteBalance h = Ok B /\ Bets_GetPrizePool d h = Err err) \/
         (exists B P, lnd_RemoteBalance h = Ok B /\ Bets_GetPrizePool d h = Ok P /\
                      Lotteries_GetNextHeight d h = Err err))
    | None =>
        exists B P T,
          lnd_RemoteBalance h = Ok B /\ Bets_GetPrizePool d h = Ok P /\
          Lotteries_GetNextHeight d h = Ok T /\
          NextHeight info = T /\
          (0 <= P < 2 ^ 63 -> PrizePool info = P) /\
          (2 ^ 63 <= P < 2 ^ 64 -> PrizePool info = P - 2 ^ 64) /\
          (0 <= B < 2 ^ 63 ->
           0 <= Capacity info /\ 5 * Capacity info <= B < 5 * Capacity info + 5) /\
          (- 2 ^ 63 <= B <= 0 ->
           Capacity info <= 0 /\ 5 * Capacity info - 5 < B <= 5 * Capacity info)
    end.
Proof.
  unfold GetInfo, bind, ask, ret.
  destruct (lnd_RemoteBalance h) as [B|e1]; [|eexists _, (Some e1); eauto].
  destruct (Bets_GetPrizePool d h) as [P|e2].
  2: { eexists _, (Some e2). split; [done|]. split; [done|]. right. left. eauto. }
  destruct (Lotteries_GetNextHeight d h) as [T|e3].
  2: { eexists _, (Some e3). split; [done|]. split; [done|]. right. right. eauto. }
  eexists _, None. split; [done|]. exists B, P, T.
  split; [done|]. split; [done|]. split; [done|]. cbn [NextHeight PrizePool Capacity].
  split; [done|]. unfold CapacityDivisor.
  split; [intros HP; apply int_id; lia|]. split.
  { intros HP. unfold int64.
    replace (P + 2 ^ 63) with ((P - 2 ^ 63) + 1 * 2 ^ 64) by lia.
    rewrite Z.mod_add by lia. rewrite Z.mod_small by lia. lia. }
  split.
  - intros HB. rewrite Z.quot_div_nonneg by lia.
    pose proof (Z.div_mod B 5 ltac:(lia)) as Hdm.
    pose proof (Z.mod_pos_bound B 5 ltac:(lia)) as Hm.
    assert (0 <= B / 5 <= B) as Hq.
    { split; [apply Z.div_pos; lia | apply Z.div_le_upper_bound; lia]. }
    change (int64 (B / 5)) with (int (B / 5)). rewrite int_id by lia. lia.
  - intros HB.
    assert (Z.quot B 5 = - ((- B) / 5)) as Hquot.
    { rewrite <- (Z.opp_involutive B) at 1. rewrite Z.quot_opp_l by lia.
      rewrite Z.quot_div_nonneg by lia. done. }
    pose proof (Z.div_mod (- B) 5 ltac:(lia)) as Hdm.
    pose proof (Z.mod_pos_bound (- B) 5 ltac:(lia)) as Hm.
    assert (0 <= (- B) / 5 <= - B) as Hq.
    { split; [apply Z.div_pos; lia | apply Z.div_le_upper_bound; lia]. }
    rewrite Hquot. change (int64 ?z) with (int z). rewrite int_id by lia. lia.
Qed.

(** ** The expiry threshold on an old enough chain *)

(** X22.  The height handed to [ExpirePrizes] lies at or below the height of
    the draw exactly when the draw is at least [blocksDuration * 3] high (the
    product in [uint32]); it is then the height of the draw minus that
    product: three steps back whenever [3 * D] fits [uint32]. *)
Theorem expiryThreshold_three_steps_back (l : Lottery) (block : BlockEpoch) :
  is_uint32 (Height block) ->
  (expiryThreshold l block <= Height block <->
   uint32 (blocksDuration l * 3) <= Height block) /\
  (uint32 (blocksDuration l * 3) <= Height block ->
   expiryThreshold l block = Height block - uint32 (blocksDuration l * 3)) /\
  (0 <= 3 * blocksDuration l <= Height block ->
   expiryThreshold l block = Height block - 3 * blocksDuration l).
Proof.
  intros HH. unfold is_uint32 in HH.
  pose proof (uint32_range (blocksDuration l * 3)) as HD.
  assert (uint32 (blocksDuration l * 3) <= Height block ->
          expiryThreshold l block = Height block - uint32 (blocksDuration l * 3))
    as Hback.
  { intros Hle. unfold expiryThreshold. apply uint32_id. lia. }
  split; [|split; [exact Hback|]].
  - split; [|intros Hle; rewrite Hback by done; lia].
    intros Hle. destruct (Z.le_gt_cases (uint32 (blocksDuration l * 3)) (Height block))
      as [|Hgt]; [done|]. exfalso.
    assert (expiryThreshold l block
            = Height block - uint32 (blocksDuration l * 3) + 2 ^ 32) as Hwrap.
    { unfold expiryThreshold. unfold uint32 at 1.
      symmetry. apply (Z.mod_unique _ _ (-1)); [left|]; lia. }
    lia.
  - intros Hfit. rewrite Hback; rewrite (uint32_id (blocksDuration l * 3)) by lia; lia.
Qed.

(** X22 for a draw at height 840000 with a step of 144 blocks. *)
Lemma expiryThreshold_three_steps_back_example :
  is_uint32 840000 /\
  expiryThreshold (example_lottery open_db 0 144)
                  {| Hash := example_hash; Height := 840000 |} = 839568.
Proof.
  assert (is_uint32 840000) as HH by (unfold is_uint32; lia).
  split; [exact HH|].
  destruct (expiryThreshold_three_steps_back (example_lottery open_db 0 144)
              {| Hash := example_hash; Height := 840000 |} HH) as (_ & _ & Hback).
  rewrite Hback; simpl; lia.
Defined.

(** ** The prize amounts of [getWinners]

    [p := (prize / 100) * float64(prizePool)] and [uint64(math.Round(p))],
    followed through binary64 for a pool below [2^53]: the pool converts
    exactly, every [prize / 100] is a power of two, so the product is exact
    and only [math.Round] rounds.  The binary64 operations are those of
    [SpecFloat], tied to the primitive floats by [mul_spec] and
    [Prim2SF_SF2Prim]. *)

Lemma digits2_pos_bounds (p : positive) :
  2 ^ (Z.pos (digits2_pos p) - 1) <= Z.pos p < 2 ^ Z.pos (digits2_pos p).
Proof.
  induction p as [p IH|p IH|]; cbn [digits2_pos]; [| |cbn; lia];
    rewrite Pos2Z.inj_succ;
    replace (Z.succ (Z.pos (digits2_pos p)) - 1)
      with (Z.succ (Z.pos (digits2_pos p) - 1)) by lia;
    rewrite !Z.pow_succ_r by lia; lia.
Qed.

Lemma digits2_pos_at_most (p : positive) (k : Z) :
  0 <= k -> Z.pos p < 2 ^ k -> Z.pos (digits2_pos p) <= k.
Proof.
  intros Hk Hp. destruct (Z_le_gt_dec (Z.pos (digits2_pos p)) k) as [|Hgt]; [assumption|].
  pose proof (digits2_pos_bounds p) as [Hlo _].
  pose proof (Z.pow_le_mono_r 2 k (Z.pos (digits2_pos p) - 1)). lia.
Qed.

Lemma iter_xO_value (p n : positive) :
  Z.pos (Pos.iter xO p n) = Z.pos p * 2 ^ Z.pos n.
Proof.
  induction n as [|n IH] using Pos.peano_ind.
  - cbn. lia.
  - rewrite Pos.iter_succ, Pos2Z.inj_xO, IH, Pos2Z.inj_succ, Z.pow_succ_r by lia. lia.
Qed.

Lemma iter_xO_digits (p n : positive) :
  digits2_pos (Pos.iter xO p n) = (digits2_pos p + n)%positive.
Proof.
  induction n as [|n IH] using Pos.peano_ind.
  - cbn. lia.
  - rewrite Pos.iter_succ. cbn [digits2_pos]. rewrite IH. lia.
Qed.

(** A 53-digit mantissa with an exponent in the normal range is left as it
    is by the rounding of binary64. *)
Lemma binary_round_aux_canonical (s : bool) (m : positive) (e : Z) :
  digits2_pos m = 53%positive -> -1074 <= e <= 971 ->
  binary_round_aux 53 1024 s (Z.pos m) e loc_Exact = S754_finite s m e.
Proof.
  intros Hd He.
  assert (shr_fexp 53 1024 (Z.pos m) e loc_Exact
          = ({| shr_m := Z.pos m; shr_r := false; shr_s := false |}, e)) as Hshr.
  { unfold shr_fexp, fexp, SpecFloat.emin, Zdigits2. rewrite Hd.
    replace (Z.max (53 + e - 53) (3 - 1024 - 53) - e) with 0 by lia. reflexivity. }
  unfold binary_round_aux. rewrite Hshr. cbn [shr_m loc_of_shr_record round_nearest_even].
  rewrite Hshr. cbn [shr_m].
  destruct (Z.leb_spec e (1024 - 53)); [reflexivity|lia].
Qed.

Lemma binary_normalize_below_2_53 (n : Z) :
  0 < n < 2 ^ 53 ->
  exists (m : positive) (e : Z),
    binary_normalize 53 1024 n 0 false = S754_finite false m e /\
    digits2_pos m = 53%positive /\ -52 <= e <= 0 /\ Z.pos m = n * 2 ^ (- e).
Proof.
  intros Hn. destruct n as [|p|p]; try lia. cbn [binary_normalize].
  pose proof (digits2_pos_at_most p 53 ltac:(lia) ltac:(lia)) as Hd.
  unfold binary_round, fexp, SpecFloat.emin.
  replace (Z.max (Z.pos (digits2_pos p) + 0 - 53) (3 - 1024 - 53))
    with (Z.pos (digits2_pos p) - 53) by lia.
  unfold shl_align.
  destruct (Z.pos (digits2_pos p) - 53 - 0) as [|q|q] eqn:Hq; try lia.
  - exists p, 0. assert (digits2_pos p = 53%positive) as Hd53 by lia.
    rewrite Hd53. change (53 - 53) with 0.
    rewrite binary_round_aux_canonical by (assumption || lia).
    repeat split; try assumption; try lia.
  - exists (Pos.iter xO p q), (Z.pos (digits2_pos p) - 53).
    assert (digits2_pos (Pos.iter xO p q) = 53%positive) as Hd53
      by (rewrite iter_xO_digits; lia).
    rewrite binary_round_aux_canonical by (assumption || lia).
    repeat split; try assumption; try lia.
    rewrite iter_xO_value. do 2 f_equal. lia.
Qed.

Lemma Prim2SF_canonical (m : positive) (e : Z) :
  digits2_pos m = 53%positive -> -1074 <= e <= 971 ->
  Prim2SF (SF2Prim (S754_finite false m e)) = S754_finite false m e.
Proof.
  intros Hd He. apply Prim2SF_SF2Prim.
  unfold SpecFloat.valid_binary, bounded, canonical_mantissa, fexp, SpecFloat.emin.
  rewrite Hd. apply andb_true_intro. split.
  - apply Z.eqb_eq. unfold prec, emax. lia.
  - apply Z.leb_le. unfold prec, emax. lia.
Qed.

(** Converting an integer below [2^53] to [float64] and back loses nothing. *)
Lemma uint64_of_float64_of_Z (n : Z) :
  0 <= n < 2 ^ 53 -> uint64_of_float64 (float64_of_Z n) = n.
Proof.
  intros Hn. destruct (Z.eq_dec n 0) as [->|Hnz]; [reflexivity|].
  destruct (binary_normalize_below_2_53 n ltac:(lia)) as (m & e & Hnorm & Hd & He & Hm).
  unfold uint64_of_float64, float64_of_Z. rewrite Hnorm, Prim2SF_canonical by (assumption || lia).
  rewrite Hm. destruct (Z.leb_spec 0 e).
  - replace e with 0 by lia. cbn [Z.opp Z.pow]. rewrite !Z.mul_1_r. apply uint64_id. lia.
  - rewrite Z.div_mul by (apply Z.pow_nonzero; lia). apply uint64_id. lia.
Qed.

Lemma shr_fexp_canonical (m : positive) (e : Z) :
  digits2_pos m = 53%positive -> -1074 <= e ->
  shr_fexp 53 1024 (Z.pos m) e loc_Exact
  = ({| shr_m := Z.pos m; shr_r := false; shr_s := false |}, e).
Proof.
  intros Hd He. unfold shr_fexp, fexp, SpecFloat.emin, Zdigits2. rewrite Hd.
  replace (Z.max (53 + e - 53) (3 - 1024 - 53) - e) with 0 by lia. reflexivity.
Qed.

(** Multiplying a normal binary64 by a power of two only moves the exponent,
    as long as the result stays normal. *)
Lemma SFmul_power_of_two (m : positive) (e j : Z) :
  digits2_pos m = 53%positive -> -1074 <= j + e + 52 <= 971 ->
  SFmul 53 1024 (S754_finite false 4503599627370496 j) (S754_finite false m e)
  = S754_finite false m (j + e + 52).
Proof.
  intros Hd He. cbn [SFmul xorb].
  change (4503599627370496 * m)%positive with (Pos.iter xO m 52).
  unfold binary_round_aux.
  assert (shr_fexp 53 1024 (Z.pos (Pos.iter xO m 52)) (j + e) loc_Exact
          = ({| shr_m := Z.pos m; shr_r := false; shr_s := false |}, j + e + 52)) as Hshr.
  { unfold shr_fexp, fexp, SpecFloat.emin, Zdigits2. rewrite iter_xO_digits, Hd.
    replace (Z.max (Z.pos (53 + 52) + (j + e) - 53) (3 - 1024 - 53) - (j + e))
      with 52 by lia.
    reflexivity. }
  rewrite Hshr. cbn [shr_m loc_of_shr_record round_nearest_even].
  rewrite shr_fexp_canonical by (assumption || lia). cbn [shr_m].
  destruct (Z.leb_spec (j + e + 52) (1024 - 53)); [reflexivity|lia].
Qed.

Lemma half_up_of_halving (P k : Z) :
  0 <= P -> 0 <= k ->
  (if 2 ^ (k + 1) <=? 2 * (P mod 2 ^ (k + 1)) then P / 2 ^ (k + 1) + 1 else P / 2 ^ (k + 1))
  = P / 2 ^ k - P / 2 ^ (k + 1).
Proof.
  intros HP Hk. rewrite Z.pow_add_r, Z.pow_1_r by lia.
  assert (0 < 2 ^ k) as Hc by (apply Z.pow_pos_nonneg; lia).
  set (c := 2 ^ k) in *.
  rewrite Z.rem_mul_r, <- Z.div_div by lia.
  pose proof (Z.mod_pos_bound P c Hc) as Hv.
  set (u := P / c). set (v := P mod c) in *.
  pose proof (Z.div_mod u 2 ltac:(lia)) as Hdm.
  assert (u mod 2 = 0 \/ u mod 2 = 1) as [Hu|Hu]
    by (pose proof (Z.mod_pos_bound u 2); lia); rewrite Hu in *.
  - destruct (Z.leb_spec (c * 2) (2 * (v + c * 0))); lia.
  - destruct (Z.leb_spec (c * 2) (2 * (v + c * 1))); lia.
Qed.

Lemma prize_fraction (k : nat) (prize : float) :
  prizes !! k = Some prize ->
  Prim2SF (prize / 100) = S754_finite false 4503599627370496 (-53 - Z.of_nat k).
Proof.
  intros Hk. do 8 (destruct k as [|k]; [injection Hk as <-; vm_compute; reflexivity|]).
  discriminate.
Qed.

Lemma prize_amount (k : nat) (prize : float) (P : Z) :
  prizes !! k = Some prize -> 0 <= P < 2 ^ 53 ->
  uint64_of_float64 (math_Round ((prize / 100) * float64_of_Z P)%float)
  = P / 2 ^ Z.of_nat k - P / 2 ^ (Z.of_nat k + 1).
Proof.
  intros Hk HP.
  assert (k < 8)%nat as Hk8 by (apply lookup_lt_Some in Hk; exact Hk).
  pose proof (prize_fraction k prize Hk) as Hc.
  destruct (Z.eq_dec P 0) as [->|HP0].
  { rewrite !Z.div_0_l by (apply Z.pow_nonzero; lia).
    assert (Prim2SF ((prize / 100) * float64_of_Z 0)%float = S754_zero false) as Hp0.
    { rewrite mul_spec, Hc.
      assert (Prim2SF (float64_of_Z 0) = S754_zero false) as -> by (vm_compute; reflexivity).
      reflexivity. }
    unfold math_Round. rewrite Hp0. unfold uint64_of_float64. rewrite Hp0. reflexivity. }
  destruct (binary_normalize_below_2_53 P ltac:(lia)) as (m & e & Hnorm & Hd & He & Hm).
  assert (Prim2SF ((prize / 100) * float64_of_Z P)%float
          = S754_finite false m (e - Z.of_nat k - 1)) as Hp.
  { rewrite mul_spec, Hc. unfold float64_of_Z.
    rewrite Hnorm, Prim2SF_canonical by (assumption || lia).
    unfold SF64mul, prec, emax. rewrite SFmul_power_of_two by (assumption || lia).
    f_equal. lia. }
  unfold math_Round. rewrite Hp.
  destruct (Z.leb_spec 0 (e - Z.of_nat k - 1)) as [|_]; [lia|].
  cbv zeta.
  replace (- (e - Z.of_nat k - 1)) with (- e + (Z.of_nat k + 1)) by lia.
  rewrite Z.pow_add_r by lia.
  assert (0 < 2 ^ (- e)) as Ha by (apply Z.pow_pos_nonneg; lia).
  assert (0 < 2 ^ (Z.of_nat k + 1)) as Hb by (apply Z.pow_pos_nonneg; lia).
  rewrite Hm, (Z.mul_comm P), Z.div_mul_cancel_l, Z.mul_mod_distr_l by lia.
  set (a := 2 ^ (- e)) in *. set (b := 2 ^ (Z.of_nat k + 1)) in *.
  assert ((a * b <=? 2 * (a * (P mod b))) = (b <=? 2 * (P mod b))) as ->.
  { destruct (Z.leb_spec b (2 * (P mod b))); [apply Z.leb_le|apply Z.leb_gt]; nia. }
  subst a b.
  rewrite half_up_of_halving by lia.
  apply uint64_of_float64_of_Z.
  pose proof (Z.div_pos P (2 ^ (Z.of_nat k + 1)) ltac:(lia) Hb).
  assert (0 < 2 ^ Z.of_nat k) as Hck by (apply Z.pow_pos_nonneg; lia).
  pose proof (Z.div_le_upper_bound P (2 ^ Z.of_nat k) P Hck ltac:(nia)).
  rewrite Z.pow_add_r, Z.pow_1_r, <- Z.div_div by lia.
  pose proof (Z.div_pos P (2 ^ Z.of_nat k) ltac:(lia) Hck).
  set (u := P / 2 ^ Z.of_nat k) in *.
  pose proof (Z.div_mod u 2 ltac:(lia)). pose proof (Z.mod_pos_bound u 2 ltac:(lia)). lia.
Qed.

Lemma half_up_as_difference (P k : Z) :
  0 <= P -> 0 <= k ->
  (P + 2 ^ k) / 2 ^ (k + 1) = P / 2 ^ k - P / 2 ^ (k + 1).
Proof.
  intros HP Hk. rewrite Z.pow_add_r, Z.pow_1_r by lia.
  assert (0 < 2 ^ k) as Hc by (apply Z.pow_pos_nonneg; lia).
  set (c := 2 ^ k) in *.
  rewrite <- !Z.div_div by lia.
  replace (P + c) with (P + 1 * c) by lia. rewrite Z.div_add by lia.
  set (u := P / c).
  pose proof (Z.div_mod u 2 ltac:(lia)). pose proof (Z.mod_pos_bound u 2 ltac:(lia)).
  pose proof (Z.div_mod (u + 1) 2 ltac:(lia)).
  pose proof (Z.mod_pos_bound (u + 1) 2 ltac:(lia)). lia.
Qed.

Lemma getWinners_loop_prizes (ps : list float) (hash : list Byte.byte) (P : Z)
    (bets : list Bet.t) :
  forall (acc ws : list Winner.t) (i : Z),
    getWinners_loop ps hash P bets acc i = Returns ws ->
    Winner.Prizes <$> ws
    = (Winner.Prizes <$> acc)
      ++ ((fun prize => uint64_of_float64
                          (math_Round ((prize / 100) * float64_of_Z P)%float)) <$> ps).
Proof.
  induction ps as [|prize ps IH]; intros acc ws i Hrun.
  - simpl in Hrun. injection Hrun as <-. rewrite fmap_nil, app_nil_r. reflexivity.
  - cbn [getWinners_loop] in Hrun.
    destruct (getWinningTicket hash i P) as [t| |]; cbn [go_bind] in Hrun; try done.
    destruct (getPublicKey bets t) as [pk| |]; cbn [go_bind] in Hrun; try done.
    apply IH in Hrun. rewrite Hrun, fmap_app, fmap_cons, <- app_assoc. reflexivity.
Qed.

(** The eight amounts of a draw over a pool below [2^53]. *)
Lemma getWinners_prizes_list (hash : list Byte.byte) (P : Z) (bets : list Bet.t)
    (winners : list Winner.t) (err : option error) :
  0 <= P < 2 ^ 53 -> bets <> [] ->
  getWinners hash P bets = Returns (winners, err) ->
  Winner.Prizes <$> winners
  = (fun k : nat => P / 2 ^ Z.of_nat k - P / 2 ^ (Z.of_nat k + 1)) <$> seq 0 8.
Proof.
  intros HP Hbets. unfold getWinners. destruct bets as [|b bets]; [done|].
  destruct (Z.leb_spec (len (b :: bets)) 0) as [Hle|_].
  { unfold len in Hle. simpl in Hle. lia. }
  destruct (getWinners_loop prizes hash P (b :: bets) [] _) as [ws| |] eqn:Hloop;
    cbn [go_bind]; try done.
  intros [= <- <-]. apply getWinners_loop_prizes in Hloop. rewrite Hloop, fmap_nil, app_nil_l.
  apply list_eq. intros k. rewrite !list_lookup_fmap.
  destruct (prizes !! k) as [prize|] eqn:Hk.
  - pose proof (lookup_lt_Some _ _ _ Hk) as Hk8. change (length prizes) with 8%nat in Hk8.
    rewrite lookup_seq_lt by exact Hk8. cbn [fmap option_fmap option_map Nat.add].
    f_equal. now apply prize_amount.
  - apply lookup_ge_None in Hk. change (length prizes) with 8%nat in Hk.
    rewrite lookup_seq_ge by exact Hk. reflexivity.
Qed.

(** X23.  The prize of tier [k + 1] is the share [P / 2^(k+1)] of the pool
    rounded to the nearest integer, halves up: for a pool [P] below [2^53]
    the winner at position [k] of [getWinners] is paid
    [(P + 2^k) / 2^(k+1)]. *)
Theorem getWinners_prizes_round_half_up (hash : list Byte.byte) (P : Z)
    (bets : list Bet.t) (winners : list Winner.t) (err : option error)
    (k : nat) (w : Winner.t) :
  0 <= P < 2 ^ 53 ->
  getWinners hash P bets = Returns (winners, err) ->
  winners !! k = Some w ->
  Winner.Prizes w = (P + 2 ^ Z.of_nat k) / 2 ^ (Z.of_nat k + 1).
Proof.
  intros HP Hrun Hw.
  assert (bets <> []) as Hbets.
  { intros ->. cbn in Hrun. injection Hrun as <- <-. done. }
  pose proof (getWinners_prizes_list hash P bets winners err HP Hbets Hrun) as Hlist.
  apply (f_equal (fun l => l !! k)) in Hlist. rewrite !list_lookup_fmap, Hw in Hlist.
  destruct (seq 0 8 !! k) as [j|] eqn:Hj; [|done].
  apply lookup_seq in Hj as [-> _]. injection Hlist as ->.
  rewrite half_up_as_difference by lia. reflexivity.
Qed.

(** X23 on the worked example: the fourth tier of a pool of 1000 is 62.5,
    paid as 63. *)
Lemma getWinners_prizes_round_half_up_example :
  exists w, example_winners !! 3%nat = Some w /\ Winner.Prizes w = 63.
Proof.
  destruct (example_winners !! 3%nat) as [w|] eqn:Hw; [|vm_compute in Hw; discriminate].
  exists w. split; [reflexivity|].
  assert (getWinners example_hash 1000 example_bets = Returns (example_winners, None))
    as Hrun by (vm_compute; reflexivity).
  rewrite (getWinners_prizes_round_half_up example_hash 1000 example_bets
             example_winners None 3 w ltac:(lia) Hrun Hw).
  reflexivity.
Defined.

(** X24.  A draw pays out the pool less its 256th part: over a pool [P]
    below [2^53] and a non-empty bet list, the eight prizes of [getWinners]
    add up to [P - P / 256], so never to more than the pool. *)
Theorem getWinners_pays_pool_less_256th (hash : list Byte.byte) (P : Z)
    (bets : list Bet.t) (winners : list Winner.t) (err : option error) :
  0 <= P < 2 ^ 53 -> bets <> [] ->
  getWinners hash P bets = Returns (winners, err) ->
  foldr Z.add 0 (Winner.Prizes <$> winners) = P - P / 256 /\
  foldr Z.add 0 (Winner.Prizes <$> winners) <= P.
Proof.
  intros HP Hbets Hrun.
  rewrite (getWinners_prizes_list hash P bets winners err HP Hbets Hrun).
  cbn [fmap list_fmap seq foldr].
  repeat match goal with
         | |- context [Z.pow 2 ?z] =>
             let v := eval vm_compute in (Z.pow 2 z) in change (Z.pow 2 z) with v
         end.
  rewrite Z.div_1_r.
  pose proof (Z.div_pos P 256 ltac:(lia) ltac:(lia)). lia.
Qed.

(** X24 on the worked example: of a pool of 1000, 997 is paid. *)
Lemma getWinners_pays_pool_less_256th_example :
  foldr Z.add 0 (Winner.Prizes <$> example_winners) = 997.
Proof.
  assert (getWinners example_hash 1000 example_bets = Returns (example_winners, None))
    as Hrun by (vm_compute; reflexivity).
  destruct (getWinners_pays_pool_less_256th example_hash 1000 example_bets
              example_winners None ltac:(lia) ltac:(discriminate) Hrun) as [Hsum _].
  rewrite Hsum. reflexivity.
Defined.

(** ** The eight winners of a draw *)




